(** * goutil: the [strutil] width helpers and the [cflag] flag binder

    A shallow embedding of [strutil/runes.go] (rune widths and width-based
    splitting) and of the [cflag] package (shortcuts, required options,
    bound positional arguments), with the properties of the specification
    stated and settled over it.

    Go values are modelled as follows.  A [string] is a sequence of bytes
    (Rocq's [string], one [ascii] per byte); an [int] is a [Z]: lengths,
    indices and sums of widths stay far below the largest [int] and are
    written without wrap-around, while the one subtraction on a number the
    caller chooses, in [Utf8Truncate], is written with it; a
    [map[string]T] is a [gmap string T]; a nil slice and an empty slice are
    told apart only where the code tells them apart. *)

From Stdlib Require Import ZArith Lia Ascii String List.
From stdpp Require Import base option list strings gmap pretty.

Local Open Scope Z_scope.

(* ===================================================================== *)
(** * Package [strutil] (runes.go)                                        *)
(* ===================================================================== *)

Module strutil.

(** A rune is a Unicode code point, an [int32]. *)
Definition rune := Z.

(** [utf8.RuneError], the replacement character. *)
Definition RuneError : rune := 0xFFFD.

Definition byte_of (a : ascii) : Z := Z.of_N (N_of_ascii a).
Definition ascii_of (b : Z) : ascii := ascii_of_N (Z.to_N b).

Definition bytes (s : string) : list Z := map byte_of (list_ascii_of_string s).
Definition of_bytes (bs : list Z) : string :=
  string_of_list_ascii (map ascii_of bs).

Definition in_rng (lo hi b : Z) : bool := (lo <=? b) && (b <=? hi).

(** Number of bytes announced by a leading byte (0: not a leading byte),
    as in the [first] table of [unicode/utf8]. *)
Definition lead_size (b0 : Z) : nat :=
  if b0 <? 0x80 then 1%nat
  else if in_rng 0xC2 0xDF b0 then 2%nat
  else if in_rng 0xE0 0xEF b0 then 3%nat
  else if in_rng 0xF0 0xF4 b0 then 4%nat
  else 0%nat.

(** Range accepted for the second byte ([acceptRanges] of [unicode/utf8]). *)
Definition second_ok (b0 b1 : Z) : bool :=
  if b0 =? 0xE0 then in_rng 0xA0 0xBF b1
  else if b0 =? 0xED then in_rng 0x80 0x9F b1
  else if b0 =? 0xF0 then in_rng 0x90 0xBF b1
  else if b0 =? 0xF4 then in_rng 0x80 0x8F b1
  else in_rng 0x80 0xBF b1.

Definition cont (b : Z) : bool := in_rng 0x80 0xBF b.

Definition low6 (b : Z) : Z := Z.land b 0x3F.

(** [[]rune(s)] on the bytes of [s]: an ill-formed byte decodes to
    [RuneError] and the scan moves on by one byte. *)
Fixpoint decode (bs : list Z) : list rune :=
  match bs with
  | [] => []
  | b0 :: t0 =>
    match lead_size b0, t0 with
    | 1%nat, _ => b0 :: decode t0
    | 2%nat, b1 :: t1 =>
      if second_ok b0 b1
      then Z.lor (Z.shiftl (Z.land b0 0x1F) 6) (low6 b1) :: decode t1
      else RuneError :: decode t0
    | 3%nat, b1 :: b2 :: t2 =>
      if second_ok b0 b1 && cont b2
      then Z.lor (Z.shiftl (Z.land b0 0x0F) 12)
             (Z.lor (Z.shiftl (low6 b1) 6) (low6 b2)) :: decode t2
      else RuneError :: decode t0
    | 4%nat, b1 :: b2 :: b3 :: t3 =>
      if second_ok b0 b1 && cont b2 && cont b3
      then Z.lor (Z.shiftl (Z.land b0 0x07) 18)
             (Z.lor (Z.shiftl (low6 b1) 12)
                (Z.lor (Z.shiftl (low6 b2) 6) (low6 b3))) :: decode t3
      else RuneError :: decode t0
    | _, _ => RuneError :: decode t0
    end
  end.

Definition runes (s : string) : list rune := decode (bytes s).

(** [string(r)]: the UTF-8 encoding of [r]; a rune out of range or a
    surrogate encodes as [RuneError]. *)
Definition encode (r : rune) : list Z :=
  if (r <? 0) || (0x10FFFF <? r) || in_rng 0xD800 0xDFFF r
  then [0xEF; 0xBF; 0xBD]
  else if r <=? 0x7F then [r]
  else if r <=? 0x7FF
  then [Z.lor 0xC0 (Z.shiftr r 6); Z.lor 0x80 (low6 r)]
  else if r <=? 0xFFFF
  then [Z.lor 0xE0 (Z.shiftr r 12); Z.lor 0x80 (low6 (Z.shiftr r 6));
        Z.lor 0x80 (low6 r)]
  else [Z.lor 0xF0 (Z.shiftr r 18); Z.lor 0x80 (low6 (Z.shiftr r 12));
        Z.lor 0x80 (low6 (Z.shiftr r 6)); Z.lor 0x80 (low6 r)].

Definition string_of_rune (r : rune) : string := of_bytes (encode r).

(** The width classes of [golang.org/x/text/width]. *)
Inductive Kind :=
| Neutral
| EastAsianAmbiguous
| EastAsianWide
| EastAsianNarrow
| EastAsianFullwidth
| EastAsianHalfwidth.

(** The width table of [golang.org/x/text/width] ([width.LookupRune(r).Kind()])
    is data of an external package: the functions below take it as given. *)
Class WidthTable := LookupRune : rune -> Kind.

(** Go's [int] is 32 or 64 bits wide, as the platform has it. *)
Class IntSize := {
  int_bits : Z;
  int_bits_32_64 : int_bits = 32 \/ int_bits = 64;
}.

Definition min_int `{IS : IntSize} : Z := - 2 ^ (int_bits - 1).
Definition max_int `{IS : IntSize} : Z := 2 ^ (int_bits - 1) - 1.

(** What an [int] holds when the exact result of an operation is [z]: [z]
    modulo [2 ^ int_bits], read as a signed number. *)
Definition wrap `{IS : IntSize} (z : Z) : Z :=
  (z - min_int) mod 2 ^ int_bits + min_int.

Section Width.
Context `{WT : WidthTable} `{IS : IntSize}.

Definition RuneWidth (r : rune) : Z :=
  match LookupRune r with
  | Neutral => 0
  | EastAsianFullwidth | EastAsianWide | EastAsianAmbiguous => 2
  | _ => 1
  end.

Definition Utf8Width (s : string) : Z :=
  fold_left (fun size runeVal => size + RuneWidth runeVal) (runes s) 0.

(** The loop state of [Utf8Split]: [tmpW], [tmpS] and the chunks [ss]. *)
Definition split_step (w : Z) (st : Z * string * list string) (r : rune)
  : Z * string * list string :=
  let '(tmpW, tmpS, ss) := st in
  let rw := RuneWidth r in
  if tmpW + rw =? w then (0, EmptyString, ss ++ [tmpS +:+ string_of_rune r])
  else if tmpW + rw >? w then (rw, string_of_rune r, ss ++ [tmpS])
  else (tmpW + rw, tmpS +:+ string_of_rune r, ss).

Definition Utf8Split (s : string) (w : Z) : list string :=
  if Utf8Width s <=? w then [s]
  else
    let '(tmpW, tmpS, ss) :=
      fold_left (split_step w) (runes s) (0, EmptyString, []) in
    if tmpW >? 0 then ss ++ [tmpS] else ss.

Definition TextSplit (s : string) (w : Z) : list string := Utf8Split s w.

(** The chunks put back together. *)
Definition join (ss : list string) : string :=
  fold_right String.append EmptyString ss.

(** The runes [rs] written out one after the other. *)
Definition encode_all (rs : list rune) : string :=
  join (map string_of_rune rs).

(** The width of the runes [rs] together. *)
Definition width_sum (rs : list rune) : Z :=
  fold_right (fun r acc => RuneWidth r + acc) 0 rs.

(** [TextWidth] *)
Definition TextWidth (s : string) : Z := Utf8Width s.

(** The loop of [Utf8Truncate]: the index [i] at which it stops, counted
    from the runes [rs] still to read, with [tmpW] the width kept so far. *)
Fixpoint truncate_index (w : Z) (rs : list rune) (tmpW : Z) : nat :=
  match rs with
  | [] => 0%nat
  | r :: rs' =>
    let cw := RuneWidth r in
    if tmpW + cw >? w then 0%nat
    else S (truncate_index w rs' (tmpW + cw))
  end.

(** [Utf8Truncate]; [string(r[0:i])] is the first [i] runes written out.
    The statement [w -= TextWidth(tail)] wraps around when [w] is less
    than the least [int] plus the width of the tail. *)
Definition Utf8Truncate (s : string) (w : Z) (tail : string) : string :=
  if Utf8Width s <=? w then s
  else
    let r := runes s in
    let w := wrap (w - TextWidth tail) in
    let i := truncate_index w r 0 in
    (encode_all (take i r) +:+ tail)%string.

(** [TextTruncate] *)
Definition TextTruncate (s : string) (w : Z) (tail : string) : string :=
  Utf8Truncate s w tail.

(** The loop state of [WidthWrap]: [tmpW] and [out]. *)
Definition wrap_step (w : Z) (st : Z * string) (r : rune) : Z * string :=
  let '(tmpW, out) := st in
  let cw := RuneWidth r in
  if r =? 0x0A then (0, out +:+ string_of_rune r)
  else if tmpW + cw >? w
  then (cw, (out +:+ String "010"%char EmptyString) +:+ string_of_rune r)
  else (tmpW + cw, out +:+ string_of_rune r).

(** [WidthWrap] *)
Definition WidthWrap (s : string) (w : Z) : string :=
  snd (fold_left (wrap_step w) (runes s) (0, EmptyString)).

(** [TextWrap] *)
Definition TextWrap (s : string) (w : Z) : string := WidthWrap s w.

End Width.

(** [Utf8Len] and [Utf8len] ([utf8.RuneCountInString], which counts an
    ill-formed byte as one rune) and [RuneCount] ([len([]rune(s))]). *)
Definition Utf8Len (s : string) : Z := Z.of_nat (length (runes s)).
Definition RuneCount (s : string) : Z := Z.of_nat (length (runes s)).

(** The runes that are not a line feed. *)
Definition no_line_feeds (rs : list rune) : list rune :=
  List.filter (fun r => negb (r =? 0x0A)) rs.

(** [s] is well-formed UTF-8: it is the encoding of its own runes (an
    ill-formed byte decodes to [RuneError], whose encoding is another
    text). *)
Definition wellformed (s : string) : Prop := encode_all (runes s) = s.

(** The string [abcd] followed by a line feed. *)
Definition line_feed : string := String "010"%char EmptyString.
Definition abcd_lf : string := ("abcd" +:+ line_feed)%string.

(** The ASCII rows of the width table: controls are neutral, the printable
    characters narrow.  It stands in for the full table where an example is
    evaluated; runes outside ASCII are not covered by it and read as
    neutral. *)
Definition ascii_table : WidthTable :=
  fun r => if in_rng 0x20 0x7E r then EastAsianNarrow else Neutral.

(** The [int] of a 64-bit platform. *)
Definition int64 : IntSize :=
  {| int_bits := 64; int_bits_32_64 := or_intror eq_refl |}.

End strutil.

(* ===================================================================== *)
(** * Package [cflag]                                                      *)
(* ===================================================================== *)

Module cflag.

Local Open Scope string_scope.
Local Open Scope list_scope.
Local Open Scope Z_scope.

(** ** Values, errors, panics *)

(** An [interface{}] value, as far as the binder handles one. *)
Inductive any :=
| any_nil
| any_string (s : string)
| any_int (z : Z)
| any_bool (b : bool).

(** A Go [error]: the sentinel [flag.ErrHelp], or a message built by
    [errorx.Raw]/[errorx.Rawf] or by the flag package. *)
Inductive error :=
| ErrHelp
| Raw (msg : string).

(** The result of a call that may panic.  A panic does not undo the writes
    made before it, so the state is returned next to the result. *)
Inductive res (A : Type) :=
| Ok (a : A)
| Panic (msg : string).
Arguments Ok {A} a.
Arguments Panic {A} msg.

(** ** Records *)

(** Modelled from the spec: the declaration of [FlagOpt] is not among the
    sources.  An option binding carries a required mark, its shortcuts and
    an optional validator; these are the fields the sources read and write
    ([opt.Required], [opt.Shortcuts], [opt.Validator]). *)
Module FlagOpt.
Record t := mk {
  Required : bool;
  Shortcuts : list string;
  Validator : option (any -> option string);
}.
Definition empty : t := mk false [] None.
Definition set_Required (b : bool) (o : t) : t :=
  mk b (Shortcuts o) (Validator o).
Definition set_Shortcuts (l : list string) (o : t) : t :=
  mk (Required o) l (Validator o).
Definition set_Validator (fn : option (any -> option string)) (o : t) : t :=
  mk (Required o) (Shortcuts o) fn.
End FlagOpt.

(** Modelled from the spec: the declaration of [FlagArg] is not among the
    sources.  An argument binding carries a name, a description, its index,
    a required mark and one value slot [V], which holds the default value
    until parsing stores the token there ([arg.V = val]). *)
Module FlagArg.
Record t := mk {
  Name : string;
  Desc : string;
  Index : Z;
  Required : bool;
  V : any;
}.
Definition set_Index (i : Z) (a : t) : t :=
  mk (Name a) (Desc a) i (Required a) (V a).
Definition set_V (v : any) (a : t) : t :=
  mk (Name a) (Desc a) (Index a) (Required a) v.
End FlagArg.

(** A [*FlagArg] in the hands of a caller of [BindArg]: a pointer to an
    object that the binder does not hold, given by the fields of the
    object, or the pointer that the binder holds under a key,
    [c.bindArgs[key]], which is [nil] when the key is not bound. *)
Inductive argptr :=
| new_arg (a : FlagArg.t)
| held_arg (key : string).

(** What the binder observes of a [*flag.Flag]: its name and usage, what
    [Value.String()] returns, and what [Value.(flag.Getter).Get()] returns
    when the value is a getter. *)
Module Flag.
Record t := mk {
  Name : string;
  Usage : string;
  String_ : string;
  Get : option any;
}.
End Flag.

(** ** What the package is written against *)

(** The standard library's [flag.FlagSet], through the methods the binder
    calls.  [fs_VisitAll] lists the declared flags in the order [VisitAll]
    visits them (sorted by name); [fs_SetUsage name u] is the write
    [f.Usage = u] on the flag [name]. *)
Class FlagEngine := {
  FlagSet : Type;
  fs_Parse : list string -> FlagSet -> FlagSet * option error;
  fs_Args : FlagSet -> list string;
  fs_Lookup : string -> FlagSet -> option Flag.t;
  fs_VisitAll : FlagSet -> list Flag.t;
  fs_SetUsage : string -> string -> FlagSet -> FlagSet;
}.

(** The order in which [for k, v := range m] visits a Go map is not
    specified: [range m] is some enumeration of the entries of [m], and a
    statement made for every [MapOrder] holds whatever the order of a
    visit.  A map visited twice is enumerated the same way both times;
    only [replaceShorts] visits a map more than once, and the order matters
    there only when two shortcuts have the same prefixed form. *)
Class MapOrder := {
  range : forall {V : Type}, gmap string V -> list (string * V);
  range_perm : forall (V : Type) (m : gmap string V), range m ≡ₚ map_to_list m;
}.

(** Functions of this repository that the binder calls and that are not
    among the sources: [cflag.AddPrefix], [strutil.UpperFirst],
    [strutil.SplitNTrimmed], [strutil.Split], [strutil.Bool] (its error
    result is [None]) and the method [check] of [FlagArg]. *)
Class Helpers := {
  AddPrefix : string -> string;
  UpperFirst : string -> string;
  SplitNTrimmed : string -> string -> Z -> list string;
  Split : string -> string -> list string;
  Bool : string -> option bool;
  check : FlagArg.t -> option string;
}.

(** The process's [os.Args]. *)
Class Process := os_Args : list string.

(** ** The standard library's [strings.Trim] and [strings.ContainsRune],
    for a cutset and a rune in ASCII *)

Definition in_cutset (cutset : string) (a : ascii) : bool :=
  bool_decide (a ∈ list_ascii_of_string cutset).

Fixpoint trim_left (cutset : string) (l : list ascii) : list ascii :=
  match l with
  | a :: l' => if in_cutset cutset a then trim_left cutset l' else l
  | [] => []
  end.

Definition Trim (s cutset : string) : string :=
  string_of_list_ascii
    (rev (trim_left cutset (rev (trim_left cutset (list_ascii_of_string s))))).

Definition ContainsRune (s : string) (r : ascii) : bool :=
  bool_decide (r ∈ list_ascii_of_string s).

(** [len(s)] for a string and for a slice *)
Definition len (s : string) : Z := Z.of_nat (String.length s).
Definition len_list {A : Type} (l : list A) : Z := Z.of_nat (length l).

(** The test of [replaceShorts] for a token that is empty or does not
    start with a dash. *)
Definition no_dash (arg : string) : bool :=
  match arg with
  | EmptyString => true
  | String a _ => negb (bool_decide (a = "-"%char))
  end.

Section Binder.
Context `{FE : FlagEngine} `{MO : MapOrder} `{HP : Helpers} `{PR : Process}.

(** ** The binder *)

(** [CFlags].  The embedded [*flag.FlagSet] is the field [flagset]; the
    callback [Func] takes the binder itself and is passed to [Parse]
    instead of being stored here.  The maps [bindOpts] and [bindArgs] hold
    pointers: each key is given the object it points to, a write through a
    pointer is a write to the entry, and two keys stand for two objects. *)
Record CFlags := mkCFlags {
  flagset : FlagSet;
  bindOpts : gmap string FlagOpt.t;
  shortcuts : gmap string string;
  argWidth : Z;
  bindArgs : gmap string FlagArg.t;
  remainArgs : list string;
  Desc : string;
  Version : string;
  Example_ : string;
  LongHelp : string;
}.

Definition set_flagset (fs : FlagSet) (c : CFlags) : CFlags :=
  mkCFlags fs (bindOpts c) (shortcuts c) (argWidth c) (bindArgs c)
    (remainArgs c) (Desc c) (Version c) (Example_ c) (LongHelp c).
Definition set_bindOpts (m : gmap string FlagOpt.t) (c : CFlags) : CFlags :=
  mkCFlags (flagset c) m (shortcuts c) (argWidth c) (bindArgs c)
    (remainArgs c) (Desc c) (Version c) (Example_ c) (LongHelp c).
Definition set_shortcuts (m : gmap string string) (c : CFlags) : CFlags :=
  mkCFlags (flagset c) (bindOpts c) m (argWidth c) (bindArgs c)
    (remainArgs c) (Desc c) (Version c) (Example_ c) (LongHelp c).
Definition set_argWidth (w : Z) (c : CFlags) : CFlags :=
  mkCFlags (flagset c) (bindOpts c) (shortcuts c) w (bindArgs c)
    (remainArgs c) (Desc c) (Version c) (Example_ c) (LongHelp c).
Definition set_bindArgs (m : gmap string FlagArg.t) (c : CFlags) : CFlags :=
  mkCFlags (flagset c) (bindOpts c) (shortcuts c) (argWidth c) m
    (remainArgs c) (Desc c) (Version c) (Example_ c) (LongHelp c).
Definition set_remainArgs (l : list string) (c : CFlags) : CFlags :=
  mkCFlags (flagset c) (bindOpts c) (shortcuts c) (argWidth c) (bindArgs c)
    l (Desc c) (Version c) (Example_ c) (LongHelp c).

(** [NewEmpty], with the flag set that [New] installs. *)
Definition New (fs : FlagSet) : CFlags :=
  mkCFlags fs ∅ ∅ 12 ∅ [] "" "" "" "".

(** ** Configuration *)

(** [ConfigOpt] *)
Definition ConfigOpt (name : string) (fn : FlagOpt.t -> FlagOpt.t)
    (c : CFlags) : res unit * CFlags :=
  match fs_Lookup name (flagset c) with
  | None => (Panic ("cflag: option '" +:+ name +:+ "' is not registered"), c)
  | Some _ =>
    let opt := default FlagOpt.empty (bindOpts c !! name) in
    (Ok tt, set_bindOpts (<[name := fn opt]> (bindOpts c)) c)
  end.

(** [AddValidator] *)
Definition AddValidator (name : string) (fn : any -> option string)
    (c : CFlags) : res unit * CFlags :=
  ConfigOpt name (FlagOpt.set_Validator (Some fn)) c.

(** [addShortcuts] *)
Fixpoint addShortcuts (name : string) (shorts : list string) (c : CFlags)
  : res unit * CFlags :=
  match shorts with
  | [] => (Ok tt, c)
  | short :: rest =>
    match shortcuts c !! short with
    | Some regName =>
      (Panic ("cflag: shortcut '" +:+ short +:+ "' has been used by option '"
              +:+ regName +:+ "'"), c)
    | None =>
      addShortcuts name rest (set_shortcuts (<[short := name]> (shortcuts c)) c)
    end
  end.

(** [AddShortcuts] *)
Definition AddShortcuts (name : string) (shorts : list string) (c : CFlags)
  : res unit * CFlags :=
  match addShortcuts name shorts c with
  | (Panic m, c1) => (Panic m, c1)
  | (Ok _, c1) =>
    ConfigOpt name
      (fun opt => FlagOpt.set_Shortcuts (FlagOpt.Shortcuts opt ++ shorts) opt) c1
  end.

(** The object behind a pointer, [None] behind [nil]. *)
Definition deref (p : argptr) (c : CFlags) : option FlagArg.t :=
  match p with
  | new_arg a => Some a
  | held_arg key => bindArgs c !! key
  end.

(** A write through a pointer: it shows in the binder when the binder
    holds the object. *)
Definition write_arg (p : argptr) (f : FlagArg.t -> FlagArg.t) (c : CFlags)
  : CFlags :=
  match p with
  | new_arg _ => c
  | held_arg key => set_bindArgs (alter f key (bindArgs c)) c
  end.

(** [BindArg].  The index is written through the pointer before the
    checks, so it is written also when the call panics.  When an object
    that the binder holds is bound again under another name (the caller
    has changed its name), the Go map holds that one object under two
    keys; the map here then shows its fields under both. *)
Definition BindArg (p : argptr) (c : CFlags) : res unit * CFlags :=
  match deref p c with
  | None => (Panic "invalid memory address or nil pointer dereference", c)
  | Some a =>
    let idx := Z.of_nat (size (bindArgs c)) in
    let arg := FlagArg.set_Index idx a in
    let c := write_arg p (FlagArg.set_Index idx) c in
    match check arg with
    | Some err => (Panic err, c)
    | None =>
      match bindArgs c !! FlagArg.Name arg with
      | Some _ =>
        (Panic ("cflag: arg '" +:+ FlagArg.Name arg +:+ "' have been registered"),
         c)
      | None =>
        (Ok tt,
         set_argWidth (Z.max (argWidth c) (len (FlagArg.Name arg)))
           (set_bindArgs (<[FlagArg.Name arg := arg]> (bindArgs c)) c))
      end
    end
  end.

(** [AddArg]: the argument is a new object. *)
Definition AddArg (name desc : string) (required : bool) (value : any)
    (c : CFlags) : res unit * CFlags :=
  BindArg (new_arg (FlagArg.mk name desc 0 required value)) c.

(** A run of [BindArg] calls, each on a new object, stopping at the first
    panic. *)
Fixpoint BindArgs (args : list FlagArg.t) (c : CFlags) : res unit * CFlags :=
  match args with
  | [] => (Ok tt, c)
  | a :: rest =>
    match BindArg (new_arg a) c with
    | (Panic m, c1) => (Panic m, c1)
    | (Ok _, c1) => BindArgs rest c1
    end
  end.

(** ** Parsing *)

(** The entry of [bindOpts] under [name], made if it is not there. *)
Definition initOpt (name : string) (c : CFlags) : CFlags :=
  match bindOpts c !! name with
  | Some _ => c
  | None => set_bindOpts (<[name := FlagOpt.empty]> (bindOpts c)) c
  end.

(** A write through the pointer [opt] to the entry under [name]. *)
Definition updOpt (name : string) (f : FlagOpt.t -> FlagOpt.t) (c : CFlags)
  : CFlags :=
  set_bindOpts (alter f name (bindOpts c)) c.

(** What [parseFlagUsage] does once [parts] has more than one element. *)
Definition parseParts (name : string) (parts : list string) (c : CFlags)
  : res string * CFlags :=
  let ln := len_list parts in
  let '(desc, c) :=
    match Bool (nth 1 parts "") with
    | Some true =>
      ("<red>*</>" +:+ UpperFirst (nth 0 parts ""),
       updOpt name (FlagOpt.set_Required true) c)
    | _ => (UpperFirst (nth 0 parts ""), c)
    end in
  if (ln >? 2) && (len (nth 2 parts "") >? 0) then
    let shorts := Split (nth 2 parts "") "," in
    let c := updOpt name (FlagOpt.set_Shortcuts shorts) c in
    match addShortcuts name shorts c with
    | (Panic m, c) => (Panic m, c)
    | (Ok _, c) => (Ok desc, c)
    end
  else (Ok desc, c).

(** [parseFlagUsage] *)
Definition parseFlagUsage (name usage : string) (c : CFlags)
  : res string * CFlags :=
  let c := initOpt name c in
  let desc := Trim usage "; " in
  if negb (ContainsRune desc ";"%char) then (Ok (UpperFirst desc), c)
  else
    let parts := SplitNTrimmed desc ";" 3 in
    if len_list parts >? 1 then parseParts name parts c
    else (Ok desc, c).

(** The body of the [VisitAll] callback of [prepare], flag after flag. *)
Fixpoint prepare_visit (flags : list Flag.t) (c : CFlags) : res unit * CFlags :=
  match flags with
  | [] => (Ok tt, c)
  | f :: rest =>
    match shortcuts c !! Flag.Name f with
    | Some regName =>
      (Panic ("cflag: name '" +:+ Flag.Name f +:+ "' has been as shortcut by '"
              +:+ regName +:+ "'"), c)
    | None =>
      match parseFlagUsage (Flag.Name f) (Flag.Usage f) c with
      | (Panic m, c1) => (Panic m, c1)
      | (Ok desc, c1) =>
        prepare_visit rest
          (set_flagset (fs_SetUsage (Flag.Name f) desc (flagset c1)) c1)
      end
    end
  end.

(** [prepare] (the two writes that only redirect output are left out). *)
Definition prepare (c : CFlags) : res unit * CFlags :=
  prepare_visit (fs_VisitAll (flagset c)) c.

(** The inner loop of [replaceShorts]: the full name of the first shortcut
    met whose prefixed form is [arg]. *)
Definition matchShort (c : CFlags) (arg : string) : option string :=
  snd <$> List.find (fun p => bool_decide (arg = AddPrefix (fst p)))
            (range (shortcuts c)).

(** [replaceShorts] *)
Fixpoint replaceShorts (c : CFlags) (args : list string) : list string :=
  match args with
  | [] => []
  | arg :: rest =>
    if no_dash arg then arg :: replaceShorts c rest
    else if bool_decide (arg = "--") then arg :: rest
    else
      match matchShort c arg with
      | Some name => AddPrefix name :: replaceShorts c rest
      | None => arg :: replaceShorts c rest
      end
  end.

(** The loop of [checkBindOpts] over the entries it visits. *)
Fixpoint checkBindOpts_walk (fs : FlagSet) (l : list (string * FlagOpt.t))
  : res (option error) :=
  match l with
  | [] => Ok None
  | (name, opt) :: rest =>
    match fs_Lookup name fs with
    | None => Panic "invalid memory address or nil pointer dereference"
    | Some f =>
      if FlagOpt.Required opt && bool_decide (Flag.String_ f = "")
      then Ok (Some (Raw ("flag option '" +:+ name +:+ "' is required")))
      else
        match FlagOpt.Validator opt, Flag.Get f with
        | Some fn, Some v =>
          match fn v with
          | Some msg =>
            Ok (Some (Raw ("flag option '" +:+ name +:+ "': " +:+ msg)))
          | None => checkBindOpts_walk fs rest
          end
        | _, _ => checkBindOpts_walk fs rest
        end
    end
  end.

(** [checkBindOpts] *)
Definition checkBindOpts (c : CFlags) : res (option error) :=
  checkBindOpts_walk (flagset c) (range (bindOpts c)).

(** How the loop of [bindParsedArgs] ends. *)
Inductive walk_end :=
| WDone (lastIdx : Z)
| WErr (e : error)
| WPanic (msg : string).

Definition argRequired (name : string) (idx : Z) : error :=
  Raw ("argument '" +:+ name +:+ "'(#" +:+ pretty idx +:+ ") is required").

(** The loop of [bindParsedArgs] over the entries it visits; [m] is the map
    whose entries the loop writes through. *)
Fixpoint bindArgs_walk (args : list string) (argN : Z)
    (l : list (string * FlagArg.t)) (lastIdx : Z) (m : gmap string FlagArg.t)
  : walk_end * gmap string FlagArg.t :=
  match l with
  | [] => (WDone lastIdx, m)
  | (name, arg) :: rest =>
    if FlagArg.Index arg >? argN then
      if FlagArg.Required arg
      then (WErr (argRequired name (FlagArg.Index arg)), m)
      else (WDone lastIdx, m)
    else
      let lastIdx := lastIdx + 1 in
      if FlagArg.Index arg <? 0 then (WPanic "index out of range", m)
      else
        let val := nth (Z.to_nat (FlagArg.Index arg)) args "" in
        if FlagArg.Required arg && bool_decide (val = "")
        then (WErr (argRequired name (FlagArg.Index arg)), m)
        else
          bindArgs_walk args argN rest lastIdx
            (alter (FlagArg.set_V (any_string val)) name m)
  end.

(** [bindParsedArgs] *)
Definition bindParsedArgs (c : CFlags) : res (option error) * CFlags :=
  let args := fs_Args (flagset c) in
  let argN := len_list args - 1 in
  match bindArgs_walk args argN (range (bindArgs c)) 0 (bindArgs c) with
  | (WPanic msg, m) => (Panic msg, set_bindArgs m c)
  | (WErr e, m) => (Ok (Some e), set_bindArgs m c)
  | (WDone lastIdx, m) =>
    let c := set_bindArgs m c in
    if lastIdx <? argN
    then (Ok None, set_remainArgs (drop (Z.to_nat lastIdx) args) c)
    else (Ok None, c)
  end.

(** [RemainArgs] *)
Definition RemainArgs (c : CFlags) : list string := remainArgs c.

(** [Arg] *)
Definition Arg (name : string) (c : CFlags) : res FlagArg.t :=
  match bindArgs c !! name with
  | Some arg => Ok arg
  | None => Panic ("cflag: get not binding arg '" +:+ name +:+ "'")
  end.

(** The first statement of [doParse]: the arguments handed to the flag
    engine. *)
Definition shortArgs (c : CFlags) (args : list string) : list string :=
  if (Z.of_nat (size (shortcuts c)) >? 0) && (len_list args >? 0)
  then replaceShorts c args else args.

(** [doParse] *)
Definition doParse (args : list string) (c : CFlags)
  : res (option error) * CFlags :=
  let '(fs, err) := fs_Parse (shortArgs c args) (flagset c) in
  let c := set_flagset fs c in
  match err with
  | Some e => (Ok (Some e), c)
  | None =>
    match checkBindOpts c with
    | Panic m => (Panic m, c)
    | Ok (Some e) => (Ok (Some e), c)
    | Ok None => bindParsedArgs c
    end
  end.

(** What a call of [Parse] comes to: it returns an error value; or a panic
    raised under its deferred [recover] is printed and [Parse] returns
    [nil]; or [os.Args[1:]] panics before the [recover] is installed. *)
Inductive outcome :=
| Returned (err : option error)
| Recovered (msg : string)
| Crashed (msg : string).

(** The value [Parse] hands to its caller. *)
Definition returned (o : outcome) : option (option error) :=
  match o with
  | Returned e => Some e
  | Recovered _ => Some None
  | Crashed _ => None
  end.

(** The argument list [Parse] works on: [nil] is [None]. *)
Definition parseArgs (args : option (list string)) : res (list string) :=
  match args with
  | Some l => Ok l
  | None =>
    match os_Args with
    | [] => Panic "slice bounds out of range [1:0]"
    | _ :: rest => Ok rest
    end
  end.

(** [Parse], with the field [Func] as its first argument. *)
Definition Parse (Func : option (CFlags -> option error * CFlags))
    (args : option (list string)) (c : CFlags) : outcome * CFlags :=
  match parseArgs args with
  | Panic m => (Crashed m, c)
  | Ok args =>
    match prepare c with
    | (Panic m, c1) => (Recovered m, c1)
    | (Ok _, c1) =>
      match doParse args c1 with
      | (Panic m, c2) => (Recovered m, c2)
      | (Ok (Some ErrHelp), c2) => (Returned None, c2)
      | (Ok (Some e), c2) => (Returned (Some e), c2)
      | (Ok None, c2) =>
        match Func with
        | Some fn => let '(e, c3) := fn c2 in (Returned e, c3)
        | None => (Returned None, c2)
        end
      end
    end
  end.

(** ** Notions used to state the properties *)

(** The error [e] names the option [name]: its message starts with
    [flag option '<name>']. *)
Definition names (e : error) (name : string) : Prop :=
  exists tail, e = Raw ("flag option '" +:+ name +:+ "'" +:+ tail).

(** The check that [checkBindOpts] makes on one option: it is required and
    its value prints as the empty string, or its validator returns an
    error. *)
Definition rejects (opt : FlagOpt.t) (f : Flag.t) : bool :=
  (FlagOpt.Required opt && bool_decide (Flag.String_ f = "")) ||
  match FlagOpt.Validator opt, Flag.Get f with
  | Some fn, Some v => bool_decide (is_Some (fn v))
  | _, _ => false
  end.

(** The usage text [usage] declares the shortcut [short]: it is one of the
    tokens that [parseFlagUsage] takes from the third part of the text and
    hands to [addShortcuts]. *)
Definition declares (usage short : string) : Prop :=
  let desc := Trim usage "; " in
  let parts := SplitNTrimmed desc ";" 3 in
  ContainsRune desc ";"%char = true /\
  2 < len_list parts /\ 0 < len (nth 2 parts "") /\
  short ∈ Split (nth 2 parts "") ",".

(** The entries are visited in index order: the [i]-th one has index [i]. *)
Definition index_order (l : list (string * FlagArg.t)) : Prop :=
  forall i name a, l !! i = Some (name, a) -> FlagArg.Index a = Z.of_nat i.

(** The token of [arg] can be assigned: its index is within the tokens, and
    the token is not empty when [arg] is required. *)
Definition assignable (args : list string) (arg : FlagArg.t) : Prop :=
  0 <= FlagArg.Index arg < len_list args /\
  (FlagArg.Required arg = true ->
   nth (Z.to_nat (FlagArg.Index arg)) args "" <> "").

(** The map after the loop of [bindParsedArgs] has assigned the entries of
    [l]. *)
Definition assign (args : list string) (m : gmap string FlagArg.t)
    (l : list (string * FlagArg.t)) : gmap string FlagArg.t :=
  fold_left
    (fun m p =>
       alter (FlagArg.set_V
                (any_string (nth (Z.to_nat (FlagArg.Index (snd p))) args "")))
         (fst p) m)
    l m.

End Binder.

(** ** A flag engine, map orders and helpers to evaluate the binder on *)

(** The standard library's [flag.FlagSet] for string-valued flags
    ([flag.String], [flag.StringVar]) under [flag.ContinueOnError]: the
    declared flags with their current values, and the arguments left. *)
Module goflag.

Record FlagSet := mk {
  formal : list Flag.t;
  args : list string;
}.

(** [flag.String(name, value, usage)] *)
Definition declare (name value usage : string) (fs : FlagSet) : FlagSet :=
  mk (formal fs ++ [Flag.mk name usage value (Some (any_string value))])
     (args fs).

Definition Lookup (name : string) (fs : FlagSet) : option Flag.t :=
  List.find (fun f => bool_decide (Flag.Name f = name)) (formal fs).

Definition update (name : string) (g : Flag.t -> Flag.t) (fs : FlagSet)
  : FlagSet :=
  mk (map (fun f => if bool_decide (Flag.Name f = name) then g f else f)
        (formal fs))
     (args fs).

Definition SetUsage (name usage : string) : FlagSet -> FlagSet :=
  update name (fun f => Flag.mk (Flag.Name f) usage (Flag.String_ f) (Flag.Get f)).

Definition SetValue (name value : string) : FlagSet -> FlagSet :=
  update name
    (fun f => Flag.mk (Flag.Name f) (Flag.Usage f) value (Some (any_string value))).

Fixpoint insert_sorted (f : Flag.t) (l : list Flag.t) : list Flag.t :=
  match l with
  | [] => [f]
  | g :: l' =>
    if String.leb (Flag.Name f) (Flag.Name g) then f :: l
    else g :: insert_sorted f l'
  end.

(** [VisitAll] visits the flags sorted by name. *)
Definition VisitAll (fs : FlagSet) : list Flag.t :=
  fold_right insert_sorted [] (formal fs).

(** The name of a flag token cut at its first [=] past the first byte. *)
Fixpoint cut_eq (s : string) : string * option string :=
  match s with
  | EmptyString => (EmptyString, None)
  | String a r =>
    if bool_decide (a = "="%char) then (EmptyString, Some r)
    else let '(n, v) := cut_eq r in (String a n, v)
  end.

Definition name_value (name : string) : string * option string :=
  match name with
  | EmptyString => (EmptyString, None)
  | String a r => let '(n, v) := cut_eq r in (String a n, v)
  end.

(** What [parseOne] finds at the head of the arguments. *)
Inductive seen :=
| Stop (rest : list string)
| Fail (e : error) (rest : list string)
| Next (fs : FlagSet).

Definition parseOne (fs : FlagSet) : seen :=
  match args fs with
  | [] => Stop []
  | s :: rest =>
    match s with
    | String "-" (String c1 s2 as s1) =>
      if bool_decide (s = "--") then Stop rest
      else
        let name := if bool_decide (c1 = "-"%char) then s2 else s1 in
        match name with
        | EmptyString => Fail (Raw ("bad flag syntax: " +:+ s)) (s :: rest)
        | String n0 _ =>
          if bool_decide (n0 = "-"%char) || bool_decide (n0 = "="%char)
          then Fail (Raw ("bad flag syntax: " +:+ s)) (s :: rest)
          else
            let '(name, value) := name_value name in
            match Lookup name fs with
            | None =>
              if bool_decide (name = "help") || bool_decide (name = "h")
              then Fail ErrHelp rest
              else
                Fail (Raw ("flag provided but not defined: -" +:+ name)) rest
            | Some _ =>
              match value, rest with
              | Some v, _ => Next (SetValue name v (mk (formal fs) rest))
              | None, v :: rest' =>
                Next (SetValue name v (mk (formal fs) rest'))
              | None, [] =>
                Fail (Raw ("flag needs an argument: -" +:+ name)) []
              end
            end
        end
    | _ => Stop (s :: rest)
    end
  end.

Fixpoint parse_loop (fuel : nat) (fs : FlagSet) : FlagSet * option error :=
  match fuel with
  | O => (fs, None)
  | S fuel' =>
    match parseOne fs with
    | Stop rest => (mk (formal fs) rest, None)
    | Fail e rest => (mk (formal fs) rest, Some e)
    | Next fs' => parse_loop fuel' fs'
    end
  end.

(** [Parse]: every round of [parseOne] that goes on takes a token off, so
    the number of tokens is fuel enough. *)
Definition Parse (arguments : list string) (fs : FlagSet)
  : FlagSet * option error :=
  parse_loop (S (length arguments)) (mk (formal fs) arguments).

Definition engine : FlagEngine :=
  Build_FlagEngine FlagSet Parse args Lookup VisitAll SetUsage.

End goflag.

(** Two map orders: the enumeration of the entries as [gmap] lists them,
    and the same read backwards. *)
Definition order_fwd : MapOrder :=
  Build_MapOrder (fun V m => map_to_list m) (fun V m => reflexivity _).

Definition order_rev : MapOrder :=
  Build_MapOrder (fun V m => rev (map_to_list m))
    (fun V m => Permutation_sym (Permutation_rev (map_to_list m))).

(** Modelled from the spec: [AddPrefix] is not among the sources.  The
    option-prefix convention of the command line is the getopt one the spec
    names, [-f] for a one-letter name and [--flag] for a longer one. *)
Definition AddPrefix_spec (name : string) : string :=
  if len name >? 1 then "--" +:+ name else "-" +:+ name.

Definition spaces : string :=
  string_of_list_ascii [" "; "009"; "010"; "011"; "012"; "013"]%char.

Definition TrimSpace (l : list ascii) : list ascii :=
  rev (trim_left spaces (rev (trim_left spaces l))).

(** [strings.SplitN] for a one-byte separator: at most [n] pieces, the last
    one the unsplit rest. *)
Fixpoint SplitN (sep : ascii) (n : nat) (l : list ascii) : list (list ascii) :=
  match n with
  | O => []
  | S O => [l]
  | S n' =>
    match l with
    | [] => [[]]
    | a :: l' =>
      if bool_decide (a = sep) then [] :: SplitN sep n' l'
      else
        match SplitN sep n l' with
        | p :: ps => (a :: p) :: ps
        | [] => [[a]]
        end
    end
  end.

Definition sep_byte (sep : string) : ascii :=
  match sep with String a _ => a | EmptyString => zero end.

(** Modelled from the spec: [SplitNTrimmed] is not among the sources.  It
    splits on the separator into at most [n] parts and trims each part. *)
Definition SplitNTrimmed_spec (s sep : string) (n : Z) : list string :=
  map (fun p => string_of_list_ascii (TrimSpace p))
    (SplitN (sep_byte sep) (Z.to_nat n) (list_ascii_of_string s)).

(** Modelled from the spec: [Split] is not among the sources.  It yields
    the separated tokens, trimmed, the empty ones left out. *)
Definition Split_spec (s sep : string) : list string :=
  filter (fun t => t <> "")
    (map (fun p => string_of_list_ascii (TrimSpace p))
       (SplitN (sep_byte sep) (S (String.length s)) (list_ascii_of_string s))).

(** Modelled from the spec: [Bool] is not among the sources.  It reads a
    boolean literal; of the literals the spec lists, [true], [1], [false]
    and [0] are the ones spelled out. *)
Definition Bool_spec (s : string) : option bool :=
  if bool_decide (s = "true") || bool_decide (s = "1") then Some true
  else if bool_decide (s = "false") || bool_decide (s = "0") then Some false
  else None.

(** Modelled from the spec: [UpperFirst] and [check] are not among the
    sources and the spec says nothing of them; the usage text is kept as it
    is and every argument binding passes the check. *)
Definition helpers_spec : Helpers :=
  Build_Helpers AddPrefix_spec (fun s => s) SplitNTrimmed_spec Split_spec
    Bool_spec (fun _ => None).

(** A process started as [prog x y]. *)
Definition process_xy : Process := ["prog"; "x"; "y"].

(** ** Binders to evaluate on *)

Section Samples.
Existing Instance goflag.engine.
Existing Instance helpers_spec.
Existing Instance process_xy.

(** A flag set with no flag declared. *)
Definition no_flags : goflag.FlagSet := goflag.mk [] [].

Definition arg_a : FlagArg.t := FlagArg.mk "a" "first" 0 true any_nil.
Definition arg_b : FlagArg.t := FlagArg.mk "b" "second" 0 true any_nil.
Definition arg_name : FlagArg.t := FlagArg.mk "name" "image" 0 true any_nil.
Definition arg_tag : FlagArg.t :=
  FlagArg.mk "tag" "version" 0 false (any_string "latest").

(** Two required arguments, [a] then [b]. *)
Definition binder_ab : CFlags := (BindArgs [arg_a; arg_b] (New no_flags)).2.

(** The arguments of the spec's example: [name] required, [tag] optional
    with the default value [latest]. *)
Definition binder_name_tag : CFlags :=
  (BindArgs [arg_name; arg_tag] (New no_flags)).2.

(** Two options marked required in their usage text. *)
Definition binder_opts_ab : CFlags :=
  New (goflag.declare "b" "" "second;true"
         (goflag.declare "a" "" "first;true" no_flags)).

(** The option [name] with the shortcut [n], and with the shortcut [nm]. *)
Definition flags_name : goflag.FlagSet :=
  goflag.declare "name" "" "your name" no_flags.
Definition binder_n : CFlags := (AddShortcuts "name" ["n"] (New flags_name)).2.
Definition binder_nm : CFlags := (AddShortcuts "name" ["nm"] (New flags_name)).2.

(** The option of the spec's example. *)
Definition binder_age : CFlags :=
  New (goflag.declare "age" "" "your age;true;a" no_flags).

(** The binder [c] once the flag engine has left the positional tokens
    [tokens]. *)
Definition with_tokens (tokens : list string) (c : CFlags) : CFlags :=
  set_flagset (goflag.mk (goflag.formal (flagset c)) tokens) c.

(** [name] and [tag] bound, the one token [alpine] left. *)
Definition binder_alpine : CFlags := with_tokens ["alpine"] binder_name_tag.

(** [a] and [b] bound, one empty token left. *)
Definition binder_ab_empty : CFlags := with_tokens [""] binder_ab.

(** No argument bound, the one token [x] left. *)
Definition binder_x : CFlags := with_tokens ["x"] (New no_flags).

(** [a] and [b] bound, the one token [x] left, and four tokens left. *)
Definition binder_ab_x : CFlags := with_tokens ["x"] binder_ab.
Definition binder_ab_xyzw : CFlags :=
  with_tokens ["x"; "y"; "z"; "w"] binder_ab.

(** A validator that rejects the value [root]. *)
Definition no_root (v : any) : option string :=
  match v with
  | any_string s => if bool_decide (s = "root") then Some "reserved" else None
  | _ => None
  end.

(** The option [name] with the value [root] and the validator [no_root]. *)
Definition binder_root : CFlags :=
  (AddValidator "name" no_root
     (New (goflag.declare "name" "root" "your name" no_flags))).2.

(** The options [name] and [n], and [n] registered as a shortcut of
    [name]. *)
Definition binder_collision : CFlags :=
  (AddShortcuts "name" ["n"]
     (New (goflag.declare "n" "" "count" flags_name))).2.

(** The options [aa] and [bb], whose usage texts both declare the shortcut
    [x]. *)
Definition binder_dup : CFlags :=
  New (goflag.declare "bb" "" "B;false;x"
         (goflag.declare "aa" "" "A;false;x" no_flags)).

(** The options [aa] and [bb]: [x] is registered as a shortcut of [aa], and
    the usage text of [bb] declares it again. *)
Definition binder_aa_x : CFlags :=
  (AddShortcuts "aa" ["x"]
     (New (goflag.declare "bb" "" "B;false;x"
             (goflag.declare "aa" "" "A" no_flags)))).2.

End Samples.

(* ===================================================================== *)
(** * Properties of the binder                                             *)
(* ===================================================================== *)

Section BinderFacts.
Context `{FE : FlagEngine} `{MO : MapOrder} `{HP : Helpers} `{PR : Process}.

(** ** Registration *)

Lemma BindArg_Ok arg c c' :
  BindArg (new_arg arg) c = (Ok tt, c') ->
  bindArgs c !! FlagArg.Name arg = None /\
  bindArgs c' =
    <[FlagArg.Name arg := FlagArg.set_Index (Z.of_nat (size (bindArgs c))) arg]>
      (bindArgs c).
Proof.
  unfold BindArg. cbn [deref write_arg FlagArg.set_Index FlagArg.Name].
  destruct (check _); [discriminate|].
  destruct (bindArgs c !! FlagArg.Name arg) eqn:E; [discriminate|].
  intros [= <-]. split; [done|]. by destruct c.
Qed.

Lemma write_arg_frame p f c :
  bindOpts (write_arg p f c) = bindOpts c /\
  shortcuts (write_arg p f c) = shortcuts c /\
  remainArgs (write_arg p f c) = remainArgs c /\
  flagset (write_arg p f c) = flagset c /\
  argWidth (write_arg p f c) = argWidth c.
Proof. by destruct p. Qed.

Lemma write_arg_keys p f c name :
  is_Some (bindArgs (write_arg p f c) !! name) <-> is_Some (bindArgs c !! name).
Proof.
  destruct p as [a|key]; [done|]. cbn.
  destruct (decide (key = name)) as [->|Hne].
  - rewrite lookup_alter_eq. by rewrite fmap_is_Some.
  - by rewrite lookup_alter_ne.
Qed.

Lemma BindArg_frame_others p c :
  bindOpts (BindArg p c).2 = bindOpts c /\
  shortcuts (BindArg p c).2 = shortcuts c /\
  remainArgs (BindArg p c).2 = remainArgs c /\
  flagset (BindArg p c).2 = flagset c.
Proof.
  unfold BindArg. destruct (deref p c) as [a|]; [|done].
  cbv zeta. set (f := FlagArg.set_Index _).
  destruct (write_arg_frame p f c) as (Ho & Hs & Hr & Hf & _).
  destruct (check _); [done|].
  destruct (bindArgs (write_arg p f c) !! _); [done|]. done.
Qed.

Lemma BindArg_shortcuts p c : shortcuts (BindArg p c).2 = shortcuts c.
Proof. apply BindArg_frame_others. Qed.

Lemma BindArgs_keeps args : forall c c' k a,
  BindArgs args c = (Ok tt, c') ->
  bindArgs c !! k = Some a -> bindArgs c' !! k = Some a.
Proof.
  induction args as [|x args IH]; intros c c' k a; cbn [BindArgs].
  - by intros [= <-].
  - destruct (BindArg (new_arg x) c) as [[[]|m] c1] eqn:E; [|discriminate].
    intros Hrest Hk. apply BindArg_Ok in E as [Hnone Hmap].
    eapply IH; [exact Hrest|]. rewrite Hmap.
    rewrite lookup_insert_ne; [done|]. congruence.
Qed.

Lemma BindArgs_from args : forall c c',
  BindArgs args c = (Ok tt, c') ->
  size (bindArgs c') = (size (bindArgs c) + length args)%nat /\
  forall i a, args !! i = Some a ->
    bindArgs c' !! FlagArg.Name a =
      Some (FlagArg.set_Index (Z.of_nat (size (bindArgs c) + i)) a).
Proof.
  induction args as [|x args IH]; intros c c'; cbn [BindArgs].
  - intros [= <-]. split; [cbn; lia|]. intros i a Hi. by destruct i.
  - destruct (BindArg (new_arg x) c) as [[[]|m] c1] eqn:E; [|discriminate].
    intros Hrest. pose proof E as E'. apply BindArg_Ok in E' as [Hnone Hmap].
    assert (Hsz : size (bindArgs c1) = S (size (bindArgs c))).
    { rewrite Hmap. by apply map_size_insert_None. }
    destruct (IH _ _ Hrest) as [IHsz IHidx]. split.
    + rewrite IHsz, Hsz. cbn. lia.
    + intros [|i] a Hi.
      * cbn in Hi. injection Hi as <-. rewrite Nat.add_0_r.
        eapply BindArgs_keeps; [exact Hrest|]. rewrite Hmap.
        apply lookup_insert_eq.
      * rewrite (IHidx i a Hi), Hsz. do 3 f_equal. lia.
Qed.

Lemma addShortcuts_keeps name shorts : forall c k o,
  shortcuts c !! k = Some o ->
  shortcuts (addShortcuts name shorts c).2 !! k = Some o.
Proof.
  induction shorts as [|s shorts IH]; intros c k o Hk; cbn [addShortcuts].
  - done.
  - destruct (shortcuts c !! s) eqn:E; [done|].
    apply IH. destruct c; cbn in *. rewrite lookup_insert_ne; [done|].
    intros ->. congruence.
Qed.

Lemma addShortcuts_panics name shorts : forall c short owner,
  short ∈ shorts -> shortcuts c !! short = Some owner ->
  exists m, (addShortcuts name shorts c).1 = Panic m.
Proof.
  induction shorts as [|s shorts IH]; intros c short owner Hin Hk.
  - by apply elem_of_nil in Hin.
  - cbn [addShortcuts]. destruct (shortcuts c !! s) eqn:E; [by eexists|].
    apply elem_of_cons in Hin as [->|Hin]; [congruence|].
    apply (IH _ short owner Hin). destruct c; cbn in *.
    rewrite lookup_insert_ne; [done|]. intros ->. congruence.
Qed.

Lemma addShortcuts_Ok name shorts : forall c c',
  addShortcuts name shorts c = (Ok tt, c') ->
  (forall t, t ∈ shorts -> shortcuts c' !! t = Some name) /\
  bindOpts c' = bindOpts c /\ flagset c' = flagset c /\
  bindArgs c' = bindArgs c.
Proof.
  induction shorts as [|s shorts IH]; intros c c'; cbn [addShortcuts].
  - intros [= <-]. split; [|done]. intros t Ht. by apply elem_of_nil in Ht.
  - destruct (shortcuts c !! s) eqn:E; [discriminate|].
    intros Hrest. destruct (IH _ _ Hrest) as (IHs & -> & -> & ->).
    split; [|by destruct c]. intros t Ht.
    apply elem_of_cons in Ht as [->|Ht]; [|by apply IHs].
    replace c' with (addShortcuts name shorts
      (set_shortcuts (<[s:=name]> (shortcuts c)) c)).2 by (by rewrite Hrest).
    apply addShortcuts_keeps. destruct c; cbn. apply lookup_insert_eq.
Qed.

Lemma addShortcuts_fresh name shorts : forall c,
  NoDup shorts -> (forall t, t ∈ shorts -> shortcuts c !! t = None) ->
  (addShortcuts name shorts c).1 = Ok tt.
Proof.
  induction shorts as [|s shorts IH]; intros c Hnd Hfree; cbn [addShortcuts].
  - done.
  - rewrite (Hfree s) by (apply elem_of_cons; by left).
    apply NoDup_cons in Hnd as [Hs Hnd]. apply IH; [done|].
    intros t Ht. destruct c; cbn. rewrite lookup_insert_ne.
    + apply Hfree. apply elem_of_cons. by right.
    + intros ->. done.
Qed.

Lemma addShortcuts_frame name shorts : forall c,
  bindOpts (addShortcuts name shorts c).2 = bindOpts c /\
  flagset (addShortcuts name shorts c).2 = flagset c /\
  bindArgs (addShortcuts name shorts c).2 = bindArgs c.
Proof.
  induction shorts as [|s shorts IH]; intros c; cbn [addShortcuts]; [done|].
  destruct (shortcuts c !! s); [done|].
  destruct (IH (set_shortcuts (<[s:=name]> (shortcuts c)) c)) as (-> & -> & ->).
  by destruct c.
Qed.

(** ** Shortcut substitution *)

Lemma replaceShorts_terminator c post :
  replaceShorts c ("--" :: post) = "--" :: post.
Proof. reflexivity. Qed.

Lemma replaceShorts_cons c arg rest :
  arg <> "--" ->
  exists arg', replaceShorts c (arg :: rest) = arg' :: replaceShorts c rest.
Proof.
  intros Hne. cbn [replaceShorts].
  destruct (no_dash arg); [by eexists|].
  rewrite bool_decide_eq_false_2 by done.
  destruct (matchShort c arg); by eexists.
Qed.

Lemma range_lookup {V : Type} (m : gmap string V) k v :
  (k, v) ∈ range m <-> m !! k = Some v.
Proof. rewrite range_perm. apply elem_of_map_to_list. Qed.

Lemma matchShort_hit c s name :
  shortcuts c !! s = Some name ->
  (forall k, is_Some (shortcuts c !! k) -> AddPrefix k = AddPrefix s -> k = s) ->
  matchShort c (AddPrefix s) = Some name.
Proof.
  intros Hs Hinj. unfold matchShort.
  destruct (List.find _ _) as [[k n]|] eqn:E.
  - apply List.find_some in E as [Hin Hp].
    apply bool_decide_eq_true in Hp. cbn in Hp.
    apply list_elem_of_In, range_lookup in Hin.
    assert (k = s) as -> by (apply Hinj; [by eexists|done]).
    cbn. congruence.
  - exfalso. eapply List.find_none in E;
      [|apply list_elem_of_In, range_lookup, Hs].
    cbn in E. by apply bool_decide_eq_false in E.
Qed.

Lemma matchShort_miss c arg :
  (forall k, is_Some (shortcuts c !! k) -> AddPrefix k <> arg) ->
  matchShort c arg = None.
Proof.
  intros Hno. unfold matchShort.
  destruct (List.find _ _) as [[k n]|] eqn:E; [|done].
  apply List.find_some in E as [Hin Hp].
  apply bool_decide_eq_true in Hp. cbn in Hp.
  apply list_elem_of_In, range_lookup in Hin.
  exfalso. apply (Hno k); [by eexists|done].
Qed.

Lemma shortArgs_on c args k o :
  shortcuts c !! k = Some o -> args <> [] ->
  shortArgs c args = replaceShorts c args.
Proof.
  intros Hk Hargs. unfold shortArgs.
  assert (size (shortcuts c) <> 0%nat) by (by eapply map_size_ne_0_lookup_2).
  destruct args; [done|].
  replace (Z.of_nat (size (shortcuts c)) >? 0) with true
    by (symmetry; apply Z.gtb_lt; lia).
  unfold len_list. cbn [length].
  replace (Z.of_nat (S (length args)) >? 0) with true
    by (symmetry; apply Z.gtb_lt; lia).
  done.
Qed.

Lemma replaceShorts_dash c arg rest :
  no_dash arg = false -> arg <> "--" ->
  replaceShorts c (arg :: rest) =
    default arg (AddPrefix <$> matchShort c arg) :: replaceShorts c rest.
Proof.
  intros Hd Hne. cbn [replaceShorts]. rewrite Hd.
  rewrite bool_decide_eq_false_2 by done.
  by destruct (matchShort c arg).
Qed.

(** The rewritten argument lists of a shortcut token and of the token of
    its full name coincide. *)
Lemma replaceShorts_shortcut c s name v :
  shortcuts c !! s = Some name ->
  shortcuts c !! name = None ->
  (forall k k', AddPrefix k = AddPrefix k' -> k = k') ->
  AddPrefix s = "-" +:+ s -> s <> "-" ->
  AddPrefix name = "--" +:+ name -> name <> "" ->
  replaceShorts c ["-" +:+ s; v] = replaceShorts c ["--" +:+ name; v].
Proof.
  intros Hs Hn Hinj Hps Hsne Hpn Hnne.
  rewrite (replaceShorts_dash c ("-" +:+ s)), (replaceShorts_dash c ("--" +:+ name)).
  - rewrite <- Hps, (matchShort_hit c s name Hs) by (intros; by apply Hinj).
    rewrite <- Hpn, matchShort_miss; [done|].
    intros k [o Hk] Heq. apply Hinj in Heq as ->. congruence.
  - done.
  - intros [= Heq]. by destruct name.
  - done.
  - intros [= Heq]. done.
Qed.

Lemma doParse_shortcut c s name v :
  shortcuts c !! s = Some name ->
  shortcuts c !! name = None ->
  (forall k k', AddPrefix k = AddPrefix k' -> k = k') ->
  AddPrefix s = "-" +:+ s -> s <> "-" ->
  AddPrefix name = "--" +:+ name -> name <> "" ->
  doParse ["-" +:+ s; v] c = doParse ["--" +:+ name; v] c.
Proof.
  intros Hs Hn Hinj Hps Hsne Hpn Hnne. unfold doParse.
  rewrite !(shortArgs_on c _ s name Hs) by done.
  by rewrite (replaceShorts_shortcut c s name v).
Qed.

(** ** Usage mini-format *)

Lemma initOpt_lookup name c : is_Some (bindOpts (initOpt name c) !! name).
Proof.
  unfold initOpt. destruct (bindOpts c !! name) eqn:E; [by eexists|].
  destruct c; cbn. rewrite lookup_insert_eq. by eexists.
Qed.

Lemma initOpt_shortcuts name c : shortcuts (initOpt name c) = shortcuts c.
Proof. unfold initOpt. destruct (bindOpts c !! name); by destruct c. Qed.

Lemma len_pos s : s <> "" -> (len s >? 0) = true.
Proof. destruct s; [done|]. intros _. apply Z.gtb_lt. unfold len. cbn. lia. Qed.

Lemma parseParts_keeps name parts c k o :
  shortcuts c !! k = Some o ->
  shortcuts (parseParts name parts c).2 !! k = Some o.
Proof.
  intros Hk. unfold parseParts.
  set (c1 := match Bool (nth 1 parts "") with
             | Some true => _ | _ => _ end).
  assert (Hc1 : shortcuts c1.2 !! k = Some o).
  { subst c1. destruct (Bool _) as [[]|]; by destruct c. }
  destruct c1 as [desc c1]. cbn in Hc1.
  destruct (_ && _); [|done].
  set (c2 := updOpt name _ c1).
  assert (Hc2 : shortcuts c2 !! k = Some o) by (by destruct c1).
  pose proof (addShortcuts_keeps name (Split (nth 2 parts "") ",") c2 k o Hc2).
  by destruct (addShortcuts _ _ c2) as [[[]|m] c3].
Qed.

Lemma parseFlagUsage_keeps name usage c k o :
  shortcuts c !! k = Some o ->
  shortcuts (parseFlagUsage name usage c).2 !! k = Some o.
Proof.
  intros Hk. unfold parseFlagUsage.
  assert (shortcuts (initOpt name c) !! k = Some o)
    by (by rewrite initOpt_shortcuts).
  destruct (negb _); [done|]. destruct (_ >? 1); [|done].
  by apply parseParts_keeps.
Qed.

Lemma parseParts_mini_format name parts c :
  is_Some (bindOpts c !! name) ->
  (forall p1, parts !! 1%nat = Some p1 -> Bool p1 = Some true ->
     FlagOpt.Required <$> bindOpts (parseParts name parts c).2 !! name
       = Some true) /\
  (forall p2, parts !! 2%nat = Some p2 -> p2 <> "" ->
     FlagOpt.Shortcuts <$> bindOpts (parseParts name parts c).2 !! name
       = Some (Split p2 ",") /\
     (forall d, (parseParts name parts c).1 = Ok d ->
        forall t, t ∈ Split p2 "," ->
          shortcuts (parseParts name parts c).2 !! t = Some name) /\
     (NoDup (Split p2 ",") ->
      (forall t, t ∈ Split p2 "," -> shortcuts c !! t = None) ->
      exists d, (parseParts name parts c).1 = Ok d)).
Proof.
  intros [opt0 Hopt]. unfold parseParts.
  set (c1 := match Bool (nth 1 parts "") with
             | Some true => _ | _ => _ end).
  assert (Hsc : shortcuts c1.2 = shortcuts c).
  { subst c1. destruct (Bool _) as [[]|]; by destruct c. }
  assert (Hsome : is_Some (bindOpts c1.2 !! name)).
  { subst c1. destruct (Bool _) as [[]|]; cbn; [|by eexists..].
    destruct c; cbn in *. rewrite lookup_alter_eq, Hopt. by eexists. }
  split.
  - intros p1 Hp1 Hb.
    assert (Hreq : FlagOpt.Required <$> bindOpts c1.2 !! name = Some true).
    { subst c1. rewrite (nth_lookup_Some _ _ _ _ Hp1), Hb.
      destruct c; cbn in *. by rewrite lookup_alter_eq, Hopt. }
    destruct c1 as [desc c1]. cbn in Hreq.
    destruct (_ && _); [|done].
    set (c2 := updOpt name _ c1).
    assert (Hc2 : FlagOpt.Required <$> bindOpts c2 !! name = Some true).
    { subst c2. destruct c1; cbn in *. rewrite lookup_alter_eq.
      destruct (bindOpts0 !! name) as [o|]; cbn in *; [|done].
      by destruct o. }
    destruct (addShortcuts_frame name (Split (nth 2 parts "") ",") c2)
      as (Hb2 & _).
    destruct (addShortcuts _ _ c2) as [[[]|m] c3]; cbn in *; by rewrite Hb2.
  - intros p2 Hp2 Hne.
    destruct c1 as [desc c1]. cbn in Hsc, Hsome.
    rewrite (nth_lookup_Some _ _ _ _ Hp2), (len_pos _ Hne).
    replace (len_list parts >? 2) with true.
    2:{ symmetry. apply Z.gtb_lt. apply lookup_lt_Some in Hp2.
        unfold len_list. lia. }
    cbn [andb].
    set (c2 := updOpt name _ c1).
    assert (Hc2 : FlagOpt.Shortcuts <$> bindOpts c2 !! name
                  = Some (Split p2 ",")).
    { subst c2. destruct c1; cbn in *. rewrite lookup_alter_eq.
      by destruct Hsome as [o ->]. }
    assert (Hs2 : shortcuts c2 = shortcuts c) by (by destruct c1).
    destruct (addShortcuts_frame name (Split p2 ",") c2) as (Hb2 & _).
    pose proof (addShortcuts_Ok name (Split p2 ",") c2) as HOk.
    pose proof (addShortcuts_fresh name (Split p2 ",") c2) as Hfresh.
    destruct (addShortcuts _ _ c2) as [[[]|m] c3]; cbn in *.
    + rewrite Hb2. split; [done|]. split; [|by eexists].
      intros _ _ t Ht. by apply (HOk c3).
    + rewrite Hb2. split; [done|]. split; [done|].
      intros Hnd Hfree. rewrite Hs2 in Hfresh.
      by specialize (Hfresh Hnd Hfree).
Qed.

(** ** Parse *)

Lemma prepare_visit_keeps flags : forall c k o,
  shortcuts c !! k = Some o ->
  shortcuts (prepare_visit flags c).2 !! k = Some o.
Proof.
  induction flags as [|f flags IH]; intros c k o Hk; cbn [prepare_visit].
  - done.
  - destruct (shortcuts c !! Flag.Name f); [done|].
    pose proof (parseFlagUsage_keeps (Flag.Name f) (Flag.Usage f) c k o Hk).
    destruct (parseFlagUsage _ _ c) as [[d|m] c1]; [|done].
    apply IH. by destruct c1.
Qed.

Lemma bindParsedArgs_shortcuts c :
  shortcuts (bindParsedArgs c).2 = shortcuts c.
Proof.
  unfold bindParsedArgs.
  destruct (bindArgs_walk _ _ _ _ _) as [[i|e|m] bm]; cbn; try by destruct c.
  destruct (i <? _); by destruct c.
Qed.

Lemma doParse_shortcuts args c : shortcuts (doParse args c).2 = shortcuts c.
Proof.
  unfold doParse. destruct (fs_Parse _ _) as [fs [e|]]; [by destruct c|].
  destruct (checkBindOpts _) as [[e|]|m]; try by destruct c.
  rewrite bindParsedArgs_shortcuts. by destruct c.
Qed.

Lemma Parse_keeps args c k o :
  shortcuts c !! k = Some o ->
  shortcuts (Parse None args c).2 !! k = Some o.
Proof.
  intros Hk. unfold Parse. destruct (parseArgs args) as [l|m]; [|done].
  pose proof (prepare_visit_keeps (fs_VisitAll (flagset c)) c k o Hk) as Hp.
  unfold prepare. destruct (prepare_visit _ c) as [[[]|m] c1]; [|done].
  cbn in Hp. pose proof (doParse_shortcuts l c1) as Hd.
  destruct (doParse l c1) as [[[[|msg]|]|m] c2]; cbn in *; by rewrite Hd.
Qed.

(** ** The check of bound options *)

Lemma checkBindOpts_walk_head fs name opt f rest :
  fs_Lookup name fs = Some f ->
  checkBindOpts_walk fs ((name, opt) :: rest) =
    if rejects opt f
    then
      if FlagOpt.Required opt && bool_decide (Flag.String_ f = "")
      then Ok (Some (Raw ("flag option '" +:+ name +:+ "' is required")))
      else
        match FlagOpt.Validator opt, Flag.Get f with
        | Some fn, Some v =>
          Ok (Some (Raw ("flag option '" +:+ name +:+ "': "
                         +:+ default "" (fn v))))
        | _, _ => Ok None
        end
    else checkBindOpts_walk fs rest.
Proof.
  intros Hf. cbn [checkBindOpts_walk]. rewrite Hf. unfold rejects.
  destruct (FlagOpt.Required opt && _); [done|]. cbn [orb].
  destruct (FlagOpt.Validator opt) as [fn|]; [|done].
  destruct (Flag.Get f) as [v|]; [|done].
  destruct (fn v) as [msg|] eqn:Ev.
  - by rewrite bool_decide_eq_true_2 by (by eexists).
  - rewrite bool_decide_eq_false_2; [done|]. by intros [? ?].
Qed.

Lemma names_required name :
  names (Raw ("flag option '" +:+ name +:+ "' is required")) name.
Proof. by exists " is required". Qed.

Lemma names_invalid name msg :
  names (Raw ("flag option '" +:+ name +:+ "': " +:+ msg)) name.
Proof. by exists (": " +:+ msg). Qed.

Lemma checkBindOpts_walk_rejects fs l :
  (forall n o, (n, o) ∈ l -> is_Some (fs_Lookup n fs)) ->
  (exists n o f, (n, o) ∈ l /\ fs_Lookup n fs = Some f /\ rejects o f = true) ->
  exists n o f e,
    (n, o) ∈ l /\ fs_Lookup n fs = Some f /\ rejects o f = true /\
    checkBindOpts_walk fs l = Ok (Some e) /\ names e n.
Proof.
  induction l as [|[n0 o0] l IH]; intros Hdecl (n & o & f & Hin & Hf & Hrej).
  - by apply elem_of_nil in Hin.
  - destruct (Hdecl n0 o0) as [f0 Hf0]; [apply elem_of_cons; by left|].
    rewrite (checkBindOpts_walk_head fs n0 o0 f0 l Hf0).
    destruct (rejects o0 f0) eqn:Hr0.
    + exists n0, o0, f0. pose proof Hr0 as Hr0'. unfold rejects in Hr0.
      destruct (FlagOpt.Required o0 && _) eqn:Hreq.
      * eexists. repeat split; [apply elem_of_cons; by left|done..|].
        apply names_required.
      * cbn [orb] in Hr0.
        destruct (FlagOpt.Validator o0) as [fn|]; [|done].
        destruct (Flag.Get f0) as [v|] eqn:Hv; [|done].
        eexists. repeat split; [apply elem_of_cons; by left|done..|].
        apply names_invalid.
    + apply elem_of_cons in Hin as [[= -> ->]|Hin]; [congruence|].
      destruct IH as (n' & o' & f' & e & Hin' & ?).
      { intros ? ? ?. eapply Hdecl. apply elem_of_cons. by right. }
      { by exists n, o, f. }
      exists n', o', f', e. split; [apply elem_of_cons; by right|done].
Qed.

Lemma checkBindOpts_walk_only fs l name opt f :
  (forall n o, (n, o) ∈ l -> is_Some (fs_Lookup n fs)) ->
  (name, opt) ∈ l ->
  (forall o, (name, o) ∈ l -> o = opt) ->
  fs_Lookup name fs = Some f ->
  FlagOpt.Required opt = true -> Flag.String_ f = "" ->
  (forall n o g, (n, o) ∈ l -> n <> name -> fs_Lookup n fs = Some g ->
     rejects o g = false) ->
  checkBindOpts_walk fs l =
    Ok (Some (Raw ("flag option '" +:+ name +:+ "' is required"))).
Proof.
  induction l as [|[n0 o0] l IH]; intros Hdecl Hin Huniq Hf Hreq Hemp Hpass.
  - by apply elem_of_nil in Hin.
  - destruct (Hdecl n0 o0) as [f0 Hf0]; [apply elem_of_cons; by left|].
    rewrite (checkBindOpts_walk_head fs n0 o0 f0 l Hf0).
    destruct (decide (n0 = name)) as [->|Hne].
    + assert (o0 = opt) as -> by (apply Huniq, elem_of_cons; by left).
      assert (f0 = f) as -> by congruence.
      unfold rejects. rewrite Hreq, Hemp.
      by rewrite bool_decide_eq_true_2 by done.
    + rewrite (Hpass n0 o0 f0); [|apply elem_of_cons; by left|done..].
      apply elem_of_cons in Hin as [[= ? ?]|Hin]; [congruence|].
      apply IH; try done.
      * intros ? ? ?. eapply Hdecl. apply elem_of_cons. by right.
      * intros ? ?. apply Huniq. apply elem_of_cons. by right.
      * intros ? ? ? ?. apply Hpass. apply elem_of_cons. by right.
Qed.

(** ** The walk over the bound arguments *)

Lemma range_NoDup {V : Type} (m : gmap string V) : NoDup (range m).*1.
Proof. rewrite range_perm. apply NoDup_fst_map_to_list. Qed.

Lemma range_length {V : Type} (m : gmap string V) : length (range m) = size m.
Proof. rewrite range_perm. apply length_map_to_list. Qed.

Lemma bindArgs_walk_app args l1 : forall l2 i m,
  (forall n a, (n, a) ∈ l1 -> assignable args a) ->
  bindArgs_walk args (len_list args - 1) (l1 ++ l2) i m =
  bindArgs_walk args (len_list args - 1) l2 (i + len_list l1)
    (assign args m l1).
Proof.
  induction l1 as [|[n a] l1 IH]; intros l2 i m Hall.
  - cbn. unfold len_list. cbn. by rewrite Z.add_0_r.
  - destruct (Hall n a) as [Hidx Hval]; [apply elem_of_cons; by left|].
    cbn [app bindArgs_walk].
    replace (FlagArg.Index a >? len_list args - 1) with false
      by (symmetry; rewrite Z.gtb_ltb; apply Z.ltb_ge; lia).
    replace (FlagArg.Index a <? 0) with false
      by (symmetry; apply Z.ltb_ge; lia).
    replace (FlagArg.Required a && bool_decide (_ = "")) with false.
    2:{ symmetry. destruct (FlagArg.Required a); [|done].
        cbn. apply bool_decide_eq_false_2. by apply Hval. }
    rewrite IH.
    + cbn [assign fold_left fst snd]. f_equal. unfold len_list. cbn. lia.
    + intros ? ? ?. eapply Hall. apply elem_of_cons. by right.
Qed.

Lemma assign_lookup_notin args l : forall m n,
  n ∉ l.*1 -> assign args m l !! n = m !! n.
Proof.
  induction l as [|[n0 a0] l IH]; intros m n Hn; [done|].
  cbn in Hn. apply not_elem_of_cons in Hn as [Hne Hn].
  cbn [assign fold_left fst snd]. fold (assign args).
  unfold assign in *. rewrite IH by done. by rewrite lookup_alter_ne.
Qed.

Lemma assign_lookup_in args l : forall m n a,
  NoDup l.*1 -> (n, a) ∈ l -> m !! n = Some a ->
  assign args m l !! n =
    Some (FlagArg.set_V
            (any_string (nth (Z.to_nat (FlagArg.Index a)) args "")) a).
Proof.
  induction l as [|[n0 a0] l IH]; intros m n a Hnd Hin Hm.
  - by apply elem_of_nil in Hin.
  - cbn in Hnd. apply NoDup_cons in Hnd as [Hn0 Hnd].
    cbn [assign fold_left fst snd].
    apply elem_of_cons in Hin as [[= -> ->]|Hin].
    + pose proof (assign_lookup_notin args l) as Hno. unfold assign in Hno.
      rewrite Hno by done. by rewrite lookup_alter_eq, Hm.
    + pose proof (IH (alter (FlagArg.set_V
         (any_string (nth (Z.to_nat (FlagArg.Index a0)) args ""))) n0 m) n a)
        as IH'.
      unfold assign in IH'. apply IH'; [done..|].
      rewrite lookup_alter_ne; [done|]. intros ->. apply Hn0.
      apply list_elem_of_fmap. by exists (n, a).
Qed.

Lemma take_fst_notin (l : list (string * FlagArg.t)) k j n a :
  NoDup l.*1 -> (k <= j)%nat -> l !! j = Some (n, a) -> n ∉ (take k l).*1.
Proof.
  intros Hnd Hkj Hj Hin. rewrite fmap_take in Hin.
  apply elem_of_take in Hin as (i & Hi & Hik).
  assert (Hj' : l.*1 !! j = Some n) by (by rewrite list_lookup_fmap, Hj).
  pose proof (NoDup_lookup _ _ _ _ Hnd Hi Hj'). lia.
Qed.

(** With every bound argument assignable, the walk assigns them all and
    ends with [lastIdx] at their number. *)
Lemma bindParsedArgs_all_assigned c :
  let args := fs_Args (flagset c) in
  let n := Z.of_nat (size (bindArgs c)) in
  let c1 := set_bindArgs (assign args (bindArgs c) (range (bindArgs c))) c in
  (forall name a, bindArgs c !! name = Some a -> assignable args a) ->
  bindParsedArgs c =
    (Ok None,
     if n <? len_list args - 1
     then set_remainArgs (drop (Z.to_nat n) args) c1 else c1).
Proof.
  intros args n c1 Hall. unfold bindParsedArgs. fold args.
  rewrite <- (app_nil_r (range (bindArgs c))) at 1.
  rewrite bindArgs_walk_app.
  - cbn [bindArgs_walk].
    replace (0 + len_list (range (bindArgs c))) with n; [by destruct (_ <? _)|].
    unfold len_list. rewrite range_length. subst n. lia.
  - intros name a Hin. apply (Hall name). by apply range_lookup.
Qed.

(** X18.  With every bound argument assigned and two tokens or more past
    the bound arguments, the remainder is the tokens past them. *)
Lemma bindParsedArgs_remainder c :
  let args := fs_Args (flagset c) in
  (forall name a, bindArgs c !! name = Some a -> assignable args a) ->
  (size (bindArgs c) + 2 <= length args)%nat ->
  RemainArgs (bindParsedArgs c).2 = drop (size (bindArgs c)) args.
Proof.
  intros args Hall Hlen. rewrite bindParsedArgs_all_assigned by done.
  fold args. unfold len_list.
  replace (_ <? _) with true by (symmetry; apply Z.ltb_lt; lia).
  cbn. by rewrite Nat2Z.id.
Qed.

(** ** The claims on registration, substitution, usage text and [Parse] *)

(** C6.  After a run of successful [BindArg] calls on a new binder, the
    argument of the [i]-th call is bound with index [i], and the binder
    holds as many arguments as there were calls: the indices are exactly
    0, 1, 2, ... in call order, with no gap. *)
Theorem BindArgs_indices fs args c' :
  BindArgs args (New fs) = (Ok tt, c') ->
  size (bindArgs c') = length args /\
  forall i a, args !! i = Some a ->
    bindArgs c' !! FlagArg.Name a = Some (FlagArg.set_Index (Z.of_nat i) a).
Proof.
  intros Hrun. destruct (BindArgs_from args _ _ Hrun) as [Hsz Hidx].
  cbn in Hsz, Hidx. rewrite map_size_empty in Hsz, Hidx. done.
Qed.

Lemma parseFlagUsage_panics name usage c short owner :
  declares usage short -> shortcuts c !! short = Some owner ->
  exists m, (parseFlagUsage name usage c).1 = Panic m.
Proof.
  intros (Hsemi & Hln & Hp2 & Hin) Hown. unfold parseFlagUsage.
  rewrite Hsemi. cbn [negb].
  set (parts := SplitNTrimmed (Trim usage "; ") ";" 3) in *.
  replace (len_list parts >? 1) with true by (symmetry; apply Z.gtb_lt; lia).
  unfold parseParts.
  set (c1 := match Bool (nth 1 parts "") with
             | Some true => _ | _ => _ end).
  assert (Hc1 : shortcuts c1.2 = shortcuts c).
  { subst c1. rewrite <- (initOpt_shortcuts name c).
    destruct (Bool _) as [[]|]; by destruct (initOpt name c). }
  destruct c1 as [desc c1]. cbn [snd] in Hc1.
  replace (len_list parts >? 2) with true by (symmetry; apply Z.gtb_lt; lia).
  replace (len (nth 2 parts "") >? 0) with true
    by (symmetry; apply Z.gtb_lt; lia).
  cbn [andb]. set (shorts := Split (nth 2 parts "") ",") in *.
  set (c2 := updOpt name (FlagOpt.set_Shortcuts shorts) c1).
  destruct (addShortcuts_panics name shorts c2 short owner Hin) as [m Hm].
  { subst c2. cbn. by rewrite Hc1. }
  exists m. destruct (addShortcuts name shorts c2) as [[[]|m'] c3];
    cbn in *; congruence.
Qed.

Lemma prepare_visit_declared_again flags : forall c f short owner,
  f ∈ flags -> declares (Flag.Usage f) short ->
  shortcuts c !! short = Some owner ->
  exists m, (prepare_visit flags c).1 = Panic m.
Proof.
  induction flags as [|g flags IH]; intros c f short owner Hin Hdecl Hown.
  - by apply elem_of_nil in Hin.
  - cbn [prepare_visit].
    destruct (shortcuts c !! Flag.Name g) eqn:Eg; [by eexists|].
    pose proof (parseFlagUsage_keeps (Flag.Name g) (Flag.Usage g) c
                  short owner Hown) as Hk.
    apply elem_of_cons in Hin as [->|Hin].
    + destruct (parseFlagUsage_panics (Flag.Name g) (Flag.Usage g) c short
                  owner Hdecl Hown) as [m Hm].
      destruct (parseFlagUsage _ _ c) as [[d|m'] c1]; [discriminate|].
      by eexists.
    + destruct (parseFlagUsage _ _ c) as [[d|m] c1]; [|by eexists].
      apply (IH _ f short owner Hin Hdecl). by destruct c1.
Qed.

Lemma ConfigOpt_shortcuts name fn c :
  shortcuts (ConfigOpt name fn c).2 = shortcuts c.
Proof. unfold ConfigOpt. destruct (fs_Lookup _ _); by destruct c. Qed.

Lemma AddShortcuts_keeps name shorts c k o :
  shortcuts c !! k = Some o ->
  shortcuts (AddShortcuts name shorts c).2 !! k = Some o.
Proof.
  intros Hk. pose proof (addShortcuts_keeps name shorts c k o Hk) as Hkeep.
  unfold AddShortcuts.
  destruct (addShortcuts name shorts c) as [[[]|m] c1]; [|done].
  by rewrite ConfigOpt_shortcuts.
Qed.

Lemma BindArg_bound_name_panics p arg c :
  deref p c = Some arg ->
  is_Some (bindArgs c !! FlagArg.Name arg) ->
  (exists m, (BindArg p c).1 = Panic m) /\
  (forall name, is_Some (bindArgs (BindArg p c).2 !! name) <->
                is_Some (bindArgs c !! name)).
Proof.
  intros Hp [bound Hbound]. unfold BindArg. rewrite Hp. cbv zeta.
  set (f := FlagArg.set_Index _).
  assert (Hkeys : is_Some (bindArgs (write_arg p f c) !! FlagArg.Name (f arg))).
  { apply write_arg_keys. by exists bound. }
  destruct Hkeys as [b' Hb'].
  destruct (check _); cbn [fst snd];
    [|rewrite Hb'; cbn [fst snd]];
    (split; [by eexists|intros name; apply write_arg_keys]).
Qed.

(** C7, as the code has it.  Take a shortcut that some option owns.  A call
    of [addShortcuts] or [AddShortcuts] that lists it panics, and so does
    [parseFlagUsage] on a usage text that declares it; the panic leaves
    these functions, but where it is raised while [Parse] prepares the
    usage texts, the deferred [recover] of [Parse] catches it and [Parse]
    returns [nil].  Whatever is called on the binder, the shortcut stays
    with its owner: a shortcut key never changes hands.  And [BindArg] on
    an argument whose name is already bound panics and binds no name. *)
Theorem duplicate_registration_panics c :
  (forall short owner, shortcuts c !! short = Some owner ->
     (forall name shorts, short ∈ shorts ->
        (exists m, (addShortcuts name shorts c).1 = Panic m) /\
        (exists m, (AddShortcuts name shorts c).1 = Panic m)) /\
     (forall name usage, declares usage short ->
        exists m, (parseFlagUsage name usage c).1 = Panic m) /\
     (forall f, f ∈ fs_VisitAll (flagset c) ->
        declares (Flag.Usage f) short ->
        forall Func args, exists m,
          (prepare c).1 = Panic m /\
          Parse Func (Some args) c = (Recovered m, (prepare c).2)) /\
     (forall name shorts,
        shortcuts (addShortcuts name shorts c).2 !! short = Some owner /\
        shortcuts (AddShortcuts name shorts c).2 !! short = Some owner) /\
     (forall name fn,
        shortcuts (ConfigOpt name fn c).2 !! short = Some owner) /\
     (forall p, shortcuts (BindArg p c).2 !! short = Some owner) /\
     (forall name usage,
        shortcuts (parseFlagUsage name usage c).2 !! short = Some owner) /\
     (forall args, shortcuts (Parse None args c).2 !! short = Some owner)) /\
  (forall p arg, deref p c = Some arg ->
     is_Some (bindArgs c !! FlagArg.Name arg) ->
     (exists m, (BindArg p c).1 = Panic m) /\
     (forall name, is_Some (bindArgs (BindArg p c).2 !! name) <->
                   is_Some (bindArgs c !! name))) /\
  (forall name desc required value, is_Some (bindArgs c !! name) ->
     exists m, (AddArg name desc required value c).1 = Panic m).
Proof.
  split; [|split].
  - intros short owner Hown. repeat split.
    + by apply (addShortcuts_panics name shorts c short owner).
    + destruct (addShortcuts_panics name shorts c short owner) as [m Hm];
        [done..|].
      exists m. unfold AddShortcuts.
      destruct (addShortcuts name shorts c) as [[[]|m'] c1]; cbn in *;
        congruence.
    + intros name usage Hdecl.
      by apply (parseFlagUsage_panics name usage c short owner).
    + intros f Hf Hdecl Func args.
      destruct (prepare_visit_declared_again _ c f short owner Hf Hdecl Hown)
        as [m Hm].
      exists m. unfold Parse, prepare in *. cbn [parseArgs].
      destruct (prepare_visit _ c) as [[[]|m'] c1]; [discriminate|].
      cbn in Hm. by injection Hm as ->.
    + by apply addShortcuts_keeps.
    + by apply AddShortcuts_keeps.
    + intros name fn. by rewrite ConfigOpt_shortcuts.
    + intros p. by rewrite BindArg_shortcuts.
    + intros name usage. by apply parseFlagUsage_keeps.
    + intros args. by apply Parse_keeps.
  - intros p arg. apply BindArg_bound_name_panics.
  - intros name desc required value Hbound. unfold AddArg.
    by apply (BindArg_bound_name_panics
                (new_arg (FlagArg.mk name desc 0 required value)) _ c eq_refl).
Qed.

(** C4.  Every token after the first literal [--] leaves the shortcut
    substitution as it entered it, at the same position: the pass rewrites
    at most the tokens before the [--]. *)
Theorem replaceShorts_after_terminator c pre post :
  "--" ∉ pre ->
  exists pre', length pre' = length pre /\
    replaceShorts c (pre ++ "--" :: post) = pre' ++ "--" :: post.
Proof.
  induction pre as [|a pre IH]; intros Hnot.
  - exists []. split; [done|]. apply replaceShorts_terminator.
  - apply not_elem_of_cons in Hnot as [Hne Hnot].
    destruct (IH Hnot) as (pre' & Hlen & Heq).
    destruct (replaceShorts_cons c a (pre ++ "--" :: post)) as [a' Ha];
      [done|].
    exists (a' :: pre'). split; [cbn; lia|].
    cbn [app]. by rewrite Ha, Heq.
Qed.

(** C8.  For a usage text that holds a [;] once trimmed, the binder takes
    the parts of [SplitNTrimmed] with the limit 3, hence at most 3 parts
    for a splitter that keeps its limit.  When the second part reads as the
    boolean true, the option's binding becomes required.  When there is a
    non-empty third part, its comma-separated tokens become the option's
    shortcut list and are handed to the registration: each token then maps
    to the option unless the registration panics, and it does not panic
    when the tokens are distinct and unclaimed. *)
Theorem parseFlagUsage_mini_format name usage c :
  let desc := Trim usage "; " in
  let parts := SplitNTrimmed desc ";" 3 in
  let r := parseFlagUsage name usage c in
  (forall s sep n, 0 < n -> len_list (SplitNTrimmed s sep n) <= n) ->
  ContainsRune desc ";" = true ->
  len_list parts <= 3 /\
  (forall p1, parts !! 1%nat = Some p1 -> Bool p1 = Some true ->
     FlagOpt.Required <$> bindOpts r.2 !! name = Some true) /\
  (forall p2, parts !! 2%nat = Some p2 -> p2 <> "" ->
     FlagOpt.Shortcuts <$> bindOpts r.2 !! name = Some (Split p2 ",") /\
     (forall d, r.1 = Ok d ->
        forall t, t ∈ Split p2 "," -> shortcuts r.2 !! t = Some name) /\
     (NoDup (Split p2 ",") ->
      (forall t, t ∈ Split p2 "," -> shortcuts c !! t = None) ->
      exists d, r.1 = Ok d)).
Proof.
  intros desc parts r Hlimit Hsemi. split; [by apply Hlimit|].
  destruct (parseParts_mini_format name parts (initOpt name c)
              (initOpt_lookup name c)) as [Hreq Hshort].
  assert (Hr : forall p i, parts !! S i = Some p ->
            r = parseParts name parts (initOpt name c)).
  { intros p i Hp. subst r. unfold parseFlagUsage.
    fold desc. rewrite Hsemi. cbn [negb]. fold parts.
    replace (len_list parts >? 1) with true; [done|].
    symmetry. apply Z.gtb_lt. apply lookup_lt_Some in Hp.
    unfold len_list. lia. }
  split.
  - intros p1 Hp1 Hb. rewrite (Hr _ _ Hp1). by apply (Hreq p1).
  - intros p2 Hp2 Hne. rewrite (Hr _ _ Hp2).
    destruct (Hshort p2 Hp2 Hne) as (H1 & H2 & H3).
    split; [done|]. split; [done|].
    intros Hnd Hfree. apply H3; [done|].
    intros t Ht. rewrite initOpt_shortcuts. by apply Hfree.
Qed.

(** C9, as the code has it.  [Parse] takes the process's arguments, the
    program name left off, when it is called with [nil]; a list that is not
    [nil], the empty one included, is parsed as it is. *)
Theorem Parse_nil_takes_process_args Func c prog rest :
  os_Args = prog :: rest ->
  Parse Func None c = Parse Func (Some rest) c /\
  forall l, parseArgs (Some l) = Ok l.
Proof.
  intros Hos. split; [|done]. unfold Parse, parseArgs. by rewrite Hos.
Qed.

(** C3, as the code has it.  Take an option [name] with a registered
    shortcut [s], where the prefix convention writes the shortcut as
    [-s] and the full name as [--name], the prefixed forms of distinct
    names differ, and [name] is not itself claimed as a shortcut.  Then
    parsing [-s v] and parsing [--name v] come to the same result and the
    same binder. *)
Theorem shortcut_parses_as_full_name c s name v :
  shortcuts c !! s = Some name ->
  shortcuts c !! name = None ->
  (forall k k', AddPrefix k = AddPrefix k' -> k = k') ->
  AddPrefix s = "-" +:+ s -> s <> "-" ->
  AddPrefix name = "--" +:+ name -> name <> "" ->
  doParse ["-" +:+ s; v] c = doParse ["--" +:+ name; v] c.
Proof. apply doParse_shortcut. Qed.

(** ** The claims on option checks and positional binding *)

(** C5, as the code has it.  Once [prepare] and the flag engine have run
    without error, an option marked required whose value prints as the
    empty string makes [Parse] return an error, and the error names an
    option that fails its check (required and empty, or rejected by its
    validator): the first such option that [checkBindOpts] visits.  It
    names the given option whenever no other bound option fails. *)
Theorem required_option_is_reported Func args c c1 fs name opt f :
  prepare c = (Ok tt, c1) ->
  fs_Parse (shortArgs c1 args) (flagset c1) = (fs, None) ->
  (forall n, is_Some (bindOpts c1 !! n) -> is_Some (fs_Lookup n fs)) ->
  bindOpts c1 !! name = Some opt -> FlagOpt.Required opt = true ->
  fs_Lookup name fs = Some f -> Flag.String_ f = "" ->
  exists n o g e,
    bindOpts c1 !! n = Some o /\ fs_Lookup n fs = Some g /\
    rejects o g = true /\ names e n /\
    Parse Func (Some args) c = (Returned (Some e), set_flagset fs c1) /\
    ((forall n' o' g', n' <> name -> bindOpts c1 !! n' = Some o' ->
        fs_Lookup n' fs = Some g' -> rejects o' g' = false) ->
     e = Raw ("flag option '" +:+ name +:+ "' is required")).
Proof.
  intros Hprep Hparse Hdecl Hopt Hreq Hf Hemp.
  assert (Hdecl' : forall n o, (n, o) ∈ range (bindOpts c1) ->
            is_Some (fs_Lookup n fs)).
  { intros n o Hin. apply Hdecl. apply range_lookup in Hin. by eexists. }
  destruct (checkBindOpts_walk_rejects fs (range (bindOpts c1)) Hdecl')
    as (n & o & g & e & Hin & Hg & Hrej & Hwalk & Hnames).
  { exists name, opt, f. split; [by apply range_lookup|]. split; [done|].
    unfold rejects. rewrite Hreq, Hemp. by rewrite bool_decide_eq_true_2. }
  exists n, o, g, e. apply range_lookup in Hin.
  split; [done|]. split; [done|]. split; [done|]. split; [done|]. split.
  - unfold Parse. cbn [parseArgs]. rewrite Hprep. unfold doParse.
    rewrite Hparse. unfold checkBindOpts. cbn [flagset bindOpts set_flagset].
    rewrite Hwalk. by destruct Hnames as [tail ->].
  - intros Hothers.
    rewrite (checkBindOpts_walk_only fs (range (bindOpts c1)) name opt f)
      in Hwalk; try done.
    + congruence.
    + by apply range_lookup.
    + intros o' Ho'. apply range_lookup in Ho'. congruence.
    + intros n' o' g' Hin' Hne Hg'. apply range_lookup in Hin'.
      by apply (Hothers n' o' g').
Qed.

(** What the walk does when the map happens to hand out the bound
    arguments in index order.  Let [k] positional tokens be left, with
    fewer tokens than bound arguments, and let no required argument among
    the first [k] have an empty token.  If argument [k] is required, the
    error names it and the index [k].  If it is optional, there is no
    error, the remainder is left as it was, arguments [0..k-1] hold their
    tokens, and arguments [k..n-1] are left as they were.  Nothing makes
    the map keep that order; the next theorem is about the other orders. *)
Lemma missing_argument_in_index_order c k name arg :
  let args := fs_Args (flagset c) in
  let l := range (bindArgs c) in
  index_order l ->
  length args = k ->
  l !! k = Some (name, arg) ->
  (forall j n a, (j < k)%nat -> l !! j = Some (n, a) ->
     FlagArg.Required a = true -> nth j args "" <> "") ->
  (FlagArg.Required arg = true ->
     (bindParsedArgs c).1 = Ok (Some (argRequired name (Z.of_nat k)))) /\
  (FlagArg.Required arg = false ->
     (bindParsedArgs c).1 = Ok None /\
     RemainArgs (bindParsedArgs c).2 = RemainArgs c /\
     (forall j n a, (j < k)%nat -> l !! j = Some (n, a) ->
        bindArgs (bindParsedArgs c).2 !! n
          = Some (FlagArg.set_V (any_string (nth j args "")) a)) /\
     (forall j n a, (k <= j)%nat -> l !! j = Some (n, a) ->
        bindArgs (bindParsedArgs c).2 !! n = Some a)).
Proof.
  intros args l Hord Hlen Hk Htok.
  assert (Hkl : (k <= length l)%nat)
    by (apply lookup_lt_Some in Hk; lia).
  assert (Hass : forall n a, (n, a) ∈ take k l -> assignable args a).
  { intros n a Hin. apply elem_of_take in Hin as (i & Hi & Hik).
    pose proof (Hord i n a Hi) as Hidx. unfold assignable.
    rewrite Hidx, Nat2Z.id. unfold len_list. split; [lia|].
    by apply (Htok i n a). }
  assert (Hw : bindArgs_walk args (len_list args - 1) l 0 (bindArgs c) =
    (if FlagArg.Required arg then WErr (argRequired name (Z.of_nat k))
     else WDone (Z.of_nat k),
     assign args (bindArgs c) (take k l))).
  { rewrite <- (take_drop_middle l k (name, arg) Hk) at 1.
    rewrite bindArgs_walk_app by done. cbn [bindArgs_walk].
    rewrite (Hord k name arg Hk).
    replace (Z.of_nat k >? len_list args - 1) with true
      by (symmetry; apply Z.gtb_lt; unfold len_list; lia).
    unfold len_list. rewrite length_take_le by done.
    by destruct (FlagArg.Required arg). }
  unfold bindParsedArgs. fold args l. rewrite Hw. split.
  - by intros ->.
  - intros ->.
    replace (Z.of_nat k <? len_list args - 1) with false
      by (symmetry; apply Z.ltb_ge; unfold len_list; lia).
    cbn [fst snd RemainArgs remainArgs bindArgs set_bindArgs].
    split; [done|]. split; [done|]. split.
    + intros j n a Hj Hin.
      rewrite (assign_lookup_in args (take k l) (bindArgs c) n a).
      * by rewrite (Hord j n a Hin), Nat2Z.id.
      * rewrite fmap_take.
        eapply sublist_NoDup; [apply (range_NoDup (bindArgs c))|].
        apply sublist_take.
      * apply elem_of_take. by exists j.
      * apply range_lookup. by apply (list_elem_of_lookup_2 l j).
    + intros j n a Hj Hin. rewrite assign_lookup_notin.
      * apply range_lookup. by apply (list_elem_of_lookup_2 l j).
      * eapply take_fst_notin; [apply (range_NoDup (bindArgs c))|done..].
Qed.

(** C1, at the inputs where the code departs from it.  The walk of
    [bindParsedArgs] takes the bound arguments as the map hands them out,
    while it compares each index with the tokens as if they came in index
    order.  Let [k] tokens be left after flag parsing, let a required
    argument with index [k] be bound, and let the walk begin with another
    argument, an optional one whose index is past the tokens.  Then the walk
    ends at once: there is no error, [Parse] returns as after a successful
    parse, the required argument is not reported, and no argument is
    assigned, not even one whose token is there. *)
Theorem optional_argument_visited_first_ends_walk
    Func args c c1 fs name arg rest kname karg :
  prepare c = (Ok tt, c1) ->
  fs_Parse (shortArgs c1 args) (flagset c1) = (fs, None) ->
  checkBindOpts (set_flagset fs c1) = Ok None ->
  range (bindArgs c1) = (name, arg) :: rest ->
  FlagArg.Required arg = false ->
  len_list (fs_Args fs) <= FlagArg.Index arg ->
  (kname, karg) ∈ rest ->
  FlagArg.Required karg = true ->
  FlagArg.Index karg = len_list (fs_Args fs) ->
  let c2 := (bindParsedArgs (set_flagset fs c1)).2 in
  bindParsedArgs (set_flagset fs c1) = (Ok None, c2) /\
  bindArgs c2 = bindArgs c1 /\
  Parse Func (Some args) c =
    match Func with
    | Some fn => let '(e, c3) := fn c2 in (Returned e, c3)
    | None => (Returned None, c2)
    end.
Proof.
  intros Hprep Hparse Hcheck Hrange Hopt Hpast _ _ _.
  assert (Hwalk : bindParsedArgs (set_flagset fs c1) =
            (Ok None, (bindParsedArgs (set_flagset fs c1)).2) /\
          bindArgs (bindParsedArgs (set_flagset fs c1)).2 = bindArgs c1).
  { unfold bindParsedArgs. cbn [flagset bindArgs set_flagset].
    rewrite Hrange. cbn [bindArgs_walk].
    replace (FlagArg.Index arg >? len_list (fs_Args fs) - 1) with true
      by (symmetry; apply Z.gtb_lt; lia).
    rewrite Hopt. by destruct (0 <? _). }
  destruct Hwalk as [Hwalk Hsame]. cbv zeta.
  split; [done|]. split; [done|].
  unfold Parse. cbn [parseArgs]. rewrite Hprep. unfold doParse.
  rewrite Hparse, Hcheck, Hwalk. done.
Qed.

(** C2, at the inputs where the code departs from it.  With every bound
    argument assigned and exactly one token more than bound arguments,
    [bindParsedArgs] returns no error and leaves the remainder as it was:
    the token left over is not collected. *)
Theorem single_leftover_token_is_not_collected c :
  let args := fs_Args (flagset c) in
  (forall name a, bindArgs c !! name = Some a -> assignable args a) ->
  length args = S (size (bindArgs c)) ->
  (bindParsedArgs c).1 = Ok None /\
  RemainArgs (bindParsedArgs c).2 = RemainArgs c /\
  drop (size (bindArgs c)) args <> [].
Proof.
  intros args Hall Hlen. rewrite bindParsedArgs_all_assigned by done.
  fold args. unfold len_list. rewrite Hlen.
  replace (_ <? _) with false by (symmetry; apply Z.ltb_ge; lia).
  cbn. split; [done|]. split; [done|].
  intros Hnil. apply (f_equal length) in Hnil.
  rewrite length_drop, Hlen in Hnil. cbn in Hnil. lia.
Qed.

(** ** Further properties of registration and substitution *)

(** X9.  [addShortcuts] goes through exactly when the tokens are distinct
    and none of them is claimed: a token repeated in one call makes it
    panic as a claimed one does. *)
Theorem addShortcuts_Ok_iff name shorts c :
  (addShortcuts name shorts c).1 = Ok tt <->
  NoDup shorts /\ forall t, t ∈ shorts -> shortcuts c !! t = None.
Proof.
  split; [|intros [Hnd Hfree]; by apply addShortcuts_fresh].
  revert c. induction shorts as [|s shorts IH]; intros c; cbn [addShortcuts].
  - intros _. split; [constructor|]. intros t Ht. by apply elem_of_nil in Ht.
  - destruct (shortcuts c !! s) eqn:Es; [discriminate|].
    intros HOk. destruct (IH _ HOk) as [Hnd Hfree].
    assert (Hs : s ∉ shorts).
    { intros Hin. specialize (Hfree s Hin). destruct c; cbn in Hfree.
      by rewrite lookup_insert_eq in Hfree. }
    split; [by apply NoDup_cons|].
    intros t Ht. apply elem_of_cons in Ht as [->|Ht]; [done|].
    specialize (Hfree t Ht). destruct c; cbn in *.
    rewrite lookup_insert_ne in Hfree; [done|]. by intros ->.
Qed.

(** X10.  [AddShortcuts] registers the shortcuts before it looks the option
    up: for an option that is not declared it panics, and the shortcuts
    (distinct and unclaimed) stay in the table, mapped to that name. *)
Theorem AddShortcuts_undeclared_still_registers name shorts c :
  fs_Lookup name (flagset c) = None ->
  NoDup shorts -> (forall t, t ∈ shorts -> shortcuts c !! t = None) ->
  (exists m, (AddShortcuts name shorts c).1 = Panic m) /\
  forall t, t ∈ shorts ->
    shortcuts (AddShortcuts name shorts c).2 !! t = Some name.
Proof.
  intros Hundecl Hnd Hfree. unfold AddShortcuts.
  pose proof (addShortcuts_fresh name shorts c Hnd Hfree) as HOk.
  destruct (addShortcuts name shorts c) as [[[]|m] c1] eqn:Ea; [|discriminate].
  destruct (addShortcuts_Ok name shorts c c1 Ea) as (Hreg & _ & Hfs & _).
  unfold ConfigOpt. rewrite Hfs, Hundecl. cbn. split; [by eexists|done].
Qed.

(** X11.  After [AddShortcuts] has gone through, each shortcut maps to the
    option, the option's shortcut list has grown by the new ones, and (for
    a prefix function that tells names apart) [replaceShorts] rewrites the
    prefixed shortcut into the prefixed name. *)
Theorem AddShortcuts_then_replaceShorts name shorts c c' t rest :
  AddShortcuts name shorts c = (Ok tt, c') ->
  (forall k k', AddPrefix k = AddPrefix k' -> k = k') ->
  t ∈ shorts ->
  no_dash (AddPrefix t) = false -> AddPrefix t <> "--" ->
  shortcuts c' !! t = Some name /\
  FlagOpt.Shortcuts <$> bindOpts c' !! name
    = Some (FlagOpt.Shortcuts (default FlagOpt.empty (bindOpts c !! name))
            ++ shorts) /\
  replaceShorts c' (AddPrefix t :: rest)
    = AddPrefix name :: replaceShorts c' rest.
Proof.
  unfold AddShortcuts. intros Hadd Hinj Ht Hdash Hterm.
  destruct (addShortcuts name shorts c) as [[[]|m] c1] eqn:Ea; [|discriminate].
  destruct (addShortcuts_Ok name shorts c c1 Ea) as (Hreg & Hbo & Hfs & _).
  unfold ConfigOpt in Hadd.
  destruct (fs_Lookup name (flagset c1)); [|discriminate].
  injection Hadd as <-.
  assert (Hs : shortcuts (set_bindOpts
                 (<[name:=FlagOpt.set_Shortcuts
                      (FlagOpt.Shortcuts
                         (default FlagOpt.empty (bindOpts c1 !! name)) ++ shorts)
                      (default FlagOpt.empty (bindOpts c1 !! name))]>
                    (bindOpts c1)) c1) !! t = Some name).
  { destruct c1; cbn in *. by apply Hreg. }
  split; [exact Hs|]. split.
  - cbn [bindOpts set_bindOpts]. rewrite lookup_insert_eq. cbn. by rewrite Hbo.
  - rewrite replaceShorts_dash by done.
    rewrite (matchShort_hit _ t name Hs); [done|]. intros; by apply Hinj.
Qed.

Lemma replaceShorts_Forall2 c args :
  Forall2
    (fun a b =>
       b = a \/
       (no_dash a = false /\
        exists short name,
          shortcuts c !! short = Some name /\
          a = AddPrefix short /\ b = AddPrefix name))
    args (replaceShorts c args).
Proof.
  induction args as [|a args IH]; cbn [replaceShorts]; [constructor|].
  destruct (no_dash a) eqn:Hd; [constructor; [by left|done]|].
  destruct (bool_decide (a = "--")).
  { constructor; [by left|]. apply Forall_Forall2_diag, Forall_forall.
    intros; by left. }
  unfold matchShort.
  destruct (List.find _ _) as [[k n]|] eqn:Ef; cbn.
  - apply List.find_some in Ef as [Hin Hp].
    apply bool_decide_eq_true in Hp. cbn in Hp.
    apply list_elem_of_In, range_lookup in Hin.
    constructor; [|done]. right. split; [done|]. by exists k, n.
  - constructor; [by left|done].
Qed.

(** X12.  [replaceShorts] returns as many tokens as it is given, and the
    token at each position is the one given, or, for a given token that
    starts with a dash and is the prefixed form of a registered shortcut,
    the prefixed name of that shortcut's option. *)
Theorem replaceShorts_pointwise c args :
  length (replaceShorts c args) = length args /\
  forall i a b,
    args !! i = Some a -> replaceShorts c args !! i = Some b ->
    b = a \/
    (no_dash a = false /\
     exists short name,
       shortcuts c !! short = Some name /\
       a = AddPrefix short /\ b = AddPrefix name).
Proof.
  pose proof (replaceShorts_Forall2 c args) as HF. split.
  - symmetry. by eapply Forall2_length.
  - intros i a b Ha Hb. by eapply (Forall2_lookup_lr _ _ _ i a b) in HF.
Qed.

(** X13.  When no given token is the prefixed form of a registered
    shortcut, in particular when no shortcut is registered, the flag engine
    is handed the arguments as they are. *)
Theorem shortArgs_unmatched c args :
  (forall a short, a ∈ args -> is_Some (shortcuts c !! short) ->
     a <> AddPrefix short) ->
  shortArgs c args = args.
Proof.
  intros Hno. unfold shortArgs. destruct (_ && _); [|done].
  induction args as [|a args IH]; cbn [replaceShorts]; [done|].
  rewrite IH by (intros ? ? ?; apply Hno, elem_of_cons; by right).
  destruct (no_dash a); [done|]. destruct (bool_decide (a = "--")); [done|].
  rewrite matchShort_miss; [done|].
  intros k Hk Heq. apply (Hno a k); [apply elem_of_cons; by left|done..].
Qed.

Lemma BindArgs_argWidth args : forall c c',
  BindArgs args c = (Ok tt, c') ->
  (forall name, is_Some (bindArgs c !! name) -> len name <= argWidth c) ->
  argWidth c <= argWidth c' /\
  forall name, is_Some (bindArgs c' !! name) -> len name <= argWidth c'.
Proof.
  induction args as [|a args IH]; intros c c'; cbn [BindArgs].
  - intros [= <-] Hinv. split; [lia|done].
  - destruct (BindArg (new_arg a) c) as [[[]|m] c1] eqn:Eb; [|discriminate].
    intros Hrest Hinv. unfold BindArg in Eb.
    cbn [deref write_arg FlagArg.Name FlagArg.set_Index] in Eb.
    destruct (check _); [discriminate|].
    destruct (bindArgs c !! FlagArg.Name a) eqn:En; [discriminate|].
    injection Eb as <-.
    destruct (IH _ _ Hrest) as [Hle Hall].
    + intros name Hname. cbn in Hname |- *.
      destruct (decide (name = FlagArg.Name a)) as [->|Hne]; [lia|].
      rewrite lookup_insert_ne in Hname by done.
      specialize (Hinv name Hname). lia.
    + cbn in Hle. split; [lia|done].
Qed.

(** X14.  After a run of successful [BindArg] calls on a new binder, the
    width kept for the help panel is at least 12 and at least the length
    of every bound argument's name. *)
Theorem BindArgs_argWidth_covers_names fs args c' :
  BindArgs args (New fs) = (Ok tt, c') ->
  12 <= argWidth c' /\
  forall name, is_Some (bindArgs c' !! name) -> len name <= argWidth c'.
Proof.
  intros Hrun. apply BindArgs_argWidth in Hrun as [Hle Hall]; [done|].
  intros name [a Ha]. cbn in Ha. by rewrite lookup_empty in Ha.
Qed.

Lemma map_size_alter {V : Type} (f : V -> V) (m : gmap string V) k :
  size (alter f k m) = size m.
Proof.
  destruct (m !! k) as [x|] eqn:E.
  - rewrite <- (insert_id m k x E) at 1. rewrite alter_insert_eq.
    by rewrite map_size_insert_Some.
  - f_equal. apply map_eq. intros j. destruct (decide (k = j)) as [->|Hne].
    + by rewrite lookup_alter_eq, E.
    + by rewrite lookup_alter_ne.
Qed.

(** X15.  What [BindArg] changes, in a binder whose keys hold distinct
    objects.  It touches neither the options, nor the shortcuts, nor the
    remainder, nor the flag set; a call that goes through adds one name,
    and a call that panics adds none.  The write of the index comes before
    the checks and goes through the pointer.  So for an object that the
    binder does not hold, a panicking call leaves the binder as it was and
    no call touches an argument bound before; for the object that the
    binder holds under a key, the call panics when the name of the object
    is bound, and yet the index of that object is overwritten with the
    number of bound arguments, the other arguments being left alone. *)
Theorem BindArg_frame c :
  (forall p,
     bindOpts (BindArg p c).2 = bindOpts c /\
     shortcuts (BindArg p c).2 = shortcuts c /\
     remainArgs (BindArg p c).2 = remainArgs c /\
     flagset (BindArg p c).2 = flagset c /\
     ((BindArg p c).1 = Ok tt ->
        size (bindArgs (BindArg p c).2) = S (size (bindArgs c))) /\
     ((exists m, (BindArg p c).1 = Panic m) ->
        forall name, is_Some (bindArgs (BindArg p c).2 !! name) <->
                     is_Some (bindArgs c !! name))) /\
  (forall a,
     ((exists m, (BindArg (new_arg a) c).1 = Panic m) ->
        (BindArg (new_arg a) c).2 = c) /\
     (forall name b, bindArgs c !! name = Some b ->
        bindArgs (BindArg (new_arg a) c).2 !! name = Some b)) /\
  (forall key a, bindArgs c !! key = Some a ->
     (is_Some (bindArgs c !! FlagArg.Name a) ->
        exists m, (BindArg (held_arg key) c).1 = Panic m) /\
     bindArgs (BindArg (held_arg key) c).2 !! key
       = Some (FlagArg.set_Index (Z.of_nat (size (bindArgs c))) a) /\
     (forall name b, name <> key -> bindArgs c !! name = Some b ->
        bindArgs (BindArg (held_arg key) c).2 !! name = Some b)).
Proof.
  split; [|split].
  - intros p. destruct (BindArg_frame_others p c) as (Ho & Hs & Hr & Hf).
    repeat (split; [done|]). unfold BindArg.
    destruct (deref p c) as [a|]; [|split; [discriminate|done]].
    cbv zeta. set (f := FlagArg.set_Index _).
    assert (Hsize : size (bindArgs (write_arg p f c)) = size (bindArgs c)).
    { destruct p as [|key]; [done|]. cbn. apply map_size_alter. }
    destruct (check _).
    { split; [discriminate|]. intros _ name. apply write_arg_keys. }
    destruct (bindArgs (write_arg p f c) !! FlagArg.Name (f a)) eqn:En.
    { split; [discriminate|]. intros _ name. apply write_arg_keys. }
    split; [|by intros [m Hm]]. intros _. cbn.
    rewrite map_size_insert_None by done. by rewrite Hsize.
  - intros a. unfold BindArg. cbn [deref write_arg]. cbv zeta.
    destruct (check _); [done|].
    destruct (bindArgs c !! FlagArg.Name _) eqn:En; [done|].
    split; [by intros [m Hm]|]. intros name b Hb. cbn.
    rewrite lookup_insert_ne; [done|]. cbn in En. congruence.
  - intros key a Ha. unfold BindArg. cbn [deref write_arg]. rewrite Ha.
    cbv zeta. set (f := FlagArg.set_Index _).
    set (c1 := set_bindArgs (alter f key (bindArgs c)) c).
    assert (Hkey : bindArgs c1 !! key = Some (f a))
      by (cbn; by rewrite lookup_alter_eq, Ha).
    assert (Hothers : forall name b, name <> key ->
              bindArgs c !! name = Some b -> bindArgs c1 !! name = Some b)
      by (intros name b Hne Hb; cbn; by rewrite lookup_alter_ne).
    assert (Hkeys : forall name, is_Some (bindArgs c1 !! name) <->
                                 is_Some (bindArgs c !! name))
      by (intros name; apply (write_arg_keys (held_arg key) f c name)).
    destruct (check _); [by repeat split; [eexists|..]|].
    destruct (bindArgs c1 !! FlagArg.Name (f a)) eqn:En.
    { by repeat split; [eexists|..]. }
    assert (Hfresh : FlagArg.Name (f a) <> key) by congruence.
    split; [|split].
    + intros Hbound. apply Hkeys in Hbound. cbn in Hbound, En.
      rewrite En in Hbound. by destruct Hbound.
    + cbn -[c1]. by rewrite lookup_insert_ne.
    + intros name b Hne Hb. cbn -[c1]. rewrite lookup_insert_ne.
      * by apply Hothers.
      * intros <-. specialize (Hothers _ _ Hne Hb).
        change (FlagArg.Name (f a)) with (FlagArg.Name a) in En. congruence.
Qed.

(** ** Further properties of parsing *)

Lemma bindArgs_walk_same_but_V args argN l : forall i m name,
  FlagArg.set_V any_nil <$> (bindArgs_walk args argN l i m).2 !! name
    = FlagArg.set_V any_nil <$> m !! name.
Proof.
  induction l as [|[n a] l IH]; intros i m name; cbn [bindArgs_walk]; [done|].
  destruct (_ >? argN); [by destruct (FlagArg.Required a)|].
  destruct (_ <? 0); [done|]. destruct (_ && _); [done|].
  rewrite IH. destruct (decide (n = name)) as [->|Hne].
  - rewrite lookup_alter_eq. by destruct (m !! name).
  - by rewrite lookup_alter_ne.
Qed.

Lemma bindParsedArgs_same_but_V c name :
  FlagArg.set_V any_nil <$> bindArgs (bindParsedArgs c).2 !! name
    = FlagArg.set_V any_nil <$> bindArgs c !! name.
Proof.
  unfold bindParsedArgs.
  pose proof (bindArgs_walk_same_but_V (fs_Args (flagset c))
                (len_list (fs_Args (flagset c)) - 1) (range (bindArgs c))
                0 (bindArgs c) name) as Hw.
  destruct (bindArgs_walk _ _ _ _ _) as [[i|e|m] bm]; cbn in *; try done.
  by destruct (i <? _).
Qed.

(** X16.  [doParse] changes nothing of what was configured: the option
    bindings, the shortcuts and the help width are as before, and every
    bound argument keeps its name, description, index and required mark;
    only its value may change. *)
Theorem doParse_keeps_configuration args c :
  bindOpts (doParse args c).2 = bindOpts c /\
  shortcuts (doParse args c).2 = shortcuts c /\
  argWidth (doParse args c).2 = argWidth c /\
  forall name,
    FlagArg.set_V any_nil <$> bindArgs (doParse args c).2 !! name
      = FlagArg.set_V any_nil <$> bindArgs c !! name.
Proof.
  split; [|split; [apply doParse_shortcuts|split]].
  - unfold doParse. destruct (fs_Parse _ _) as [fs [e|]]; [done|].
    destruct (checkBindOpts _) as [[e|]|m]; try done.
    unfold bindParsedArgs.
    destruct (bindArgs_walk _ _ _ _ _) as [[i|e|m] bm]; cbn; try done.
    by destruct (i <? _).
  - unfold doParse. destruct (fs_Parse _ _) as [fs [e|]]; [done|].
    destruct (checkBindOpts _) as [[e|]|m]; try done.
    unfold bindParsedArgs.
    destruct (bindArgs_walk _ _ _ _ _) as [[i|e|m] bm]; cbn; try done.
    by destruct (i <? _).
  - intros name. unfold doParse.
    destruct (fs_Parse _ _) as [fs [e|]]; [done|].
    destruct (checkBindOpts _) as [[e|]|m]; try done.
    by rewrite bindParsedArgs_same_but_V.
Qed.

(** X17.  When every bound argument has a token at its index, not empty
    where the argument is required, [bindParsedArgs] returns no error and
    each argument holds the token at its index, whatever the order in
    which the map is visited. *)
Theorem bindParsedArgs_assigns_all c :
  let args := fs_Args (flagset c) in
  (forall name a, bindArgs c !! name = Some a -> assignable args a) ->
  (bindParsedArgs c).1 = Ok None /\
  forall name a, bindArgs c !! name = Some a ->
    bindArgs (bindParsedArgs c).2 !! name
      = Some (FlagArg.set_V
                (any_string (nth (Z.to_nat (FlagArg.Index a)) args "")) a).
Proof.
  intros args Hall. rewrite bindParsedArgs_all_assigned by done.
  fold args. split; [done|]. intros name a Ha.
  assert (Hlook : assign args (bindArgs c) (range (bindArgs c)) !! name
            = Some (FlagArg.set_V
                (any_string (nth (Z.to_nat (FlagArg.Index a)) args "")) a)).
  { apply assign_lookup_in; [apply (range_NoDup (bindArgs c))| |done].
    by apply range_lookup. }
  by destruct (_ <? _).
Qed.

(** X19.  When one required argument is the only one whose token is
    missing or empty, the error names that argument and its index,
    whatever the order in which the map is visited. *)
Theorem sole_missing_required_argument_is_reported c name a :
  let args := fs_Args (flagset c) in
  bindArgs c !! name = Some a ->
  FlagArg.Required a = true -> 0 <= FlagArg.Index a ->
  ~ assignable args a ->
  (forall n' a', n' <> name -> bindArgs c !! n' = Some a' ->
     assignable args a') ->
  (bindParsedArgs c).1 = Ok (Some (argRequired name (FlagArg.Index a))).
Proof.
  intros args Ha Hreq Hidx Hbad Hothers.
  assert (Hin : (name, a) ∈ range (bindArgs c)) by (by apply range_lookup).
  apply list_elem_of_split in Hin as (l1 & l2 & Hsplit).
  pose proof (range_NoDup (bindArgs c)) as Hnd.
  rewrite Hsplit, fmap_app in Hnd. cbn in Hnd.
  apply NoDup_app in Hnd as (_ & Hdisj & _).
  assert (Hl1 : forall n' a', (n', a') ∈ l1 -> assignable args a').
  { intros n' a' Hin'. apply (Hothers n').
    - intros ->. apply (Hdisj name).
      + apply list_elem_of_fmap. by exists (name, a').
      + apply elem_of_cons. by left.
    - apply range_lookup. rewrite Hsplit. apply elem_of_app. by left. }
  unfold bindParsedArgs. fold args. rewrite Hsplit.
  rewrite bindArgs_walk_app by done. cbn [bindArgs_walk].
  destruct (Z.gtb_spec (FlagArg.Index a) (len_list args - 1)) as [Hgt|Hle].
  - by rewrite Hreq.
  - replace (FlagArg.Index a <? 0) with false by (symmetry; apply Z.ltb_ge; lia).
    rewrite Hreq. cbn [andb].
    destruct (decide (nth (Z.to_nat (FlagArg.Index a)) args "" = ""))
      as [Hemp|Hne].
    + by rewrite bool_decide_eq_true_2.
    + exfalso. apply Hbad. split; [lia|done].
Qed.

Lemma checkBindOpts_walk_passes fs l :
  (forall n o, (n, o) ∈ l -> is_Some (fs_Lookup n fs)) ->
  (forall n o g, (n, o) ∈ l -> fs_Lookup n fs = Some g -> rejects o g = false) ->
  checkBindOpts_walk fs l = Ok None.
Proof.
  induction l as [|[n0 o0] l IH]; intros Hdecl Hpass; [done|].
  destruct (Hdecl n0 o0) as [f0 Hf0]; [apply elem_of_cons; by left|].
  rewrite (checkBindOpts_walk_head fs n0 o0 f0 l Hf0).
  rewrite (Hpass n0 o0 f0); [|apply elem_of_cons; by left|done].
  apply IH.
  - intros ? ? ?. eapply Hdecl. apply elem_of_cons. by right.
  - intros ? ? ? ?. apply Hpass. apply elem_of_cons. by right.
Qed.

(** X20.  With every bound option declared, [checkBindOpts] returns no
    error exactly when no bound option is required with an empty value and
    no validator rejects its option's value. *)
Theorem checkBindOpts_passes_iff c :
  (forall n, is_Some (bindOpts c !! n) -> is_Some (fs_Lookup n (flagset c))) ->
  checkBindOpts c = Ok None <->
  forall n o g, bindOpts c !! n = Some o ->
    fs_Lookup n (flagset c) = Some g -> rejects o g = false.
Proof.
  intros Hdecl.
  assert (Hdecl' : forall n o, (n, o) ∈ range (bindOpts c) ->
            is_Some (fs_Lookup n (flagset c))).
  { intros n o Hin. apply Hdecl. apply range_lookup in Hin. by eexists. }
  unfold checkBindOpts. split.
  - intros Hpass n o g Ho Hg. destruct (rejects o g) eqn:Hr; [|done].
    destruct (checkBindOpts_walk_rejects (flagset c) (range (bindOpts c)) Hdecl')
      as (? & ? & ? & e & _ & _ & _ & Hwalk & _).
    { exists n, o, g. split; [by apply range_lookup|done]. }
    congruence.
  - intros Hnone. apply checkBindOpts_walk_passes; [done|].
    intros n o g Hin. apply range_lookup in Hin. by apply Hnone.
Qed.

Lemma checkBindOpts_walk_sole fs l name opt :
  (forall n o, (n, o) ∈ l -> is_Some (fs_Lookup n fs)) ->
  (name, opt) ∈ l ->
  (forall o, (name, o) ∈ l -> o = opt) ->
  (forall n o g, (n, o) ∈ l -> n <> name -> fs_Lookup n fs = Some g ->
     rejects o g = false) ->
  (forall f, fs_Lookup name fs = Some f -> rejects opt f = true) ->
  checkBindOpts_walk fs l = checkBindOpts_walk fs [(name, opt)].
Proof.
  induction l as [|[n0 o0] l IH]; intros Hdecl Hin Huniq Hpass Hrej.
  - by apply elem_of_nil in Hin.
  - destruct (Hdecl n0 o0) as [f0 Hf0]; [apply elem_of_cons; by left|].
    destruct (decide (n0 = name)) as [->|Hne].
    + assert (o0 = opt) as -> by (apply Huniq, elem_of_cons; by left).
      rewrite !(checkBindOpts_walk_head fs name opt f0 _ Hf0).
      by rewrite (Hrej f0 Hf0).
    + rewrite (checkBindOpts_walk_head fs n0 o0 f0 l Hf0).
      rewrite (Hpass n0 o0 f0); [|apply elem_of_cons; by left|done..].
      apply elem_of_cons in Hin as [[= ? ?]|Hin]; [congruence|].
      apply IH; try done.
      * intros ? ? ?. eapply Hdecl. apply elem_of_cons. by right.
      * intros ? ?. apply Huniq. apply elem_of_cons. by right.
      * intros ? ? ? ?. apply Hpass. apply elem_of_cons. by right.
Qed.

(** X21.  A validator set with [AddValidator] is called on the option's
    value by [checkBindOpts]: when it rejects a value that does not print
    as the empty string, and no other bound option fails its check, the
    error is the validator's message under the option's name. *)
Theorem AddValidator_then_checkBindOpts name fn c c1 f v msg :
  AddValidator name fn c = (Ok tt, c1) ->
  (forall n, is_Some (bindOpts c1 !! n) -> is_Some (fs_Lookup n (flagset c1))) ->
  fs_Lookup name (flagset c1) = Some f ->
  Flag.String_ f <> "" -> Flag.Get f = Some v -> fn v = Some msg ->
  (forall n o g, n <> name -> bindOpts c1 !! n = Some o ->
     fs_Lookup n (flagset c1) = Some g -> rejects o g = false) ->
  checkBindOpts c1
    = Ok (Some (Raw ("flag option '" +:+ name +:+ "': " +:+ msg))).
Proof.
  unfold AddValidator, ConfigOpt.
  intros Hadd Hdecl Hf Hne Hget Hfn Hothers.
  destruct (fs_Lookup name (flagset c)); [|discriminate].
  injection Hadd as <-. cbn [bindOpts set_bindOpts flagset] in *.
  set (opt := FlagOpt.set_Validator (Some fn)
                (default FlagOpt.empty (bindOpts c !! name))) in *.
  unfold checkBindOpts. cbn [bindOpts set_bindOpts flagset].
  set (m := <[name:=opt]> (bindOpts c)) in *.
  assert (Hrej : rejects opt f = true).
  { unfold rejects, opt. cbn. rewrite Hget, Hfn.
    rewrite (bool_decide_eq_true_2 (is_Some (Some msg))) by (by eexists).
    apply orb_true_r. }
  rewrite (checkBindOpts_walk_sole (flagset c) (range m) name opt).
  - rewrite (checkBindOpts_walk_head _ name opt f [] Hf), Hrej.
    rewrite bool_decide_eq_false_2 by done. rewrite andb_false_r.
    unfold opt. cbn. by rewrite Hget, Hfn.
  - intros n o Hin. apply Hdecl. apply range_lookup in Hin. by eexists.
  - apply range_lookup. apply lookup_insert_eq.
  - intros o Hin. apply range_lookup in Hin.
    unfold m in Hin. rewrite lookup_insert_eq in Hin. congruence.
  - intros n o g Hin Hn Hg. apply range_lookup in Hin. by apply (Hothers n o g).
  - intros f' Hf'. congruence.
Qed.

Lemma prepare_visit_collision flags : forall c f reg,
  f ∈ flags -> shortcuts c !! Flag.Name f = Some reg ->
  exists m, (prepare_visit flags c).1 = Panic m.
Proof.
  induction flags as [|g flags IH]; intros c f reg Hin Hreg.
  - by apply elem_of_nil in Hin.
  - cbn [prepare_visit].
    destruct (shortcuts c !! Flag.Name g) eqn:Eg; [by eexists|].
    pose proof (parseFlagUsage_keeps (Flag.Name g) (Flag.Usage g) c
                  (Flag.Name f) reg Hreg) as Hk.
    destruct (parseFlagUsage _ _ c) as [[d|m] c1]; [|by eexists].
    apply elem_of_cons in Hin as [->|Hin]; [congruence|].
    apply (IH _ f reg Hin). by destruct c1.
Qed.

(** X22.  When the name of a declared option is registered as a shortcut,
    [prepare] panics; [Parse] recovers the panic, prints it and returns
    [nil] to its caller, and the callback is not run. *)
Theorem Parse_recovers_name_collision Func l c f reg :
  f ∈ fs_VisitAll (flagset c) ->
  shortcuts c !! Flag.Name f = Some reg ->
  (exists m, (prepare c).1 = Panic m) /\
  (exists m, (Parse Func (Some l) c).1 = Recovered m) /\
  returned (Parse Func (Some l) c).1 = Some None /\
  (Parse Func (Some l) c).2 = (prepare c).2.
Proof.
  intros Hin Hreg.
  destruct (prepare_visit_collision _ c f reg Hin Hreg) as [m Hm].
  unfold Parse, prepare in *. cbn [parseArgs].
  destruct (prepare_visit _ c) as [[[]|m'] c1]; [discriminate|].
  cbn. repeat split; by eexists.
Qed.

Lemma updOpt_keeps name fn c n o :
  (forall x, FlagOpt.Validator (fn x) = FlagOpt.Validator x) ->
  (forall x, FlagOpt.Required x = true -> FlagOpt.Required (fn x) = true) ->
  bindOpts c !! n = Some o ->
  exists o', bindOpts (updOpt name fn c) !! n = Some o' /\
    (FlagOpt.Required o = true -> FlagOpt.Required o' = true) /\
    FlagOpt.Validator o' = FlagOpt.Validator o.
Proof.
  intros Hv Hr Ho. cbn. destruct (decide (name = n)) as [->|Hne].
  - rewrite lookup_alter_eq, Ho. cbn. eexists. split; [done|].
    split; [apply Hr|apply Hv].
  - rewrite lookup_alter_ne by done. by exists o.
Qed.

Lemma parseFlagUsage_keeps_marks name usage c n o :
  bindOpts c !! n = Some o ->
  exists o', bindOpts (parseFlagUsage name usage c).2 !! n = Some o' /\
    (FlagOpt.Required o = true -> FlagOpt.Required o' = true) /\
    FlagOpt.Validator o' = FlagOpt.Validator o.
Proof.
  intros Ho. unfold parseFlagUsage.
  assert (Hi : bindOpts (initOpt name c) !! n = Some o).
  { unfold initOpt. destruct (bindOpts c !! name) eqn:En; [done|].
    cbn. rewrite lookup_insert_ne; [done|]. congruence. }
  cbv zeta. set (parts := SplitNTrimmed (Trim usage "; ") ";" 3).
  destruct (negb _); [by exists o|]. destruct (_ >? 1); [|by exists o].
  unfold parseParts.
  set (c1 := match Bool (nth 1 parts "") with
             | Some true => _ | _ => _ end).
  assert (H1 : exists o1, bindOpts c1.2 !! n = Some o1 /\
            (FlagOpt.Required o = true -> FlagOpt.Required o1 = true) /\
            FlagOpt.Validator o1 = FlagOpt.Validator o).
  { subst c1. destruct (Bool _) as [[]|]; cbn [snd]; [|by exists o..].
    by apply updOpt_keeps. }
  destruct c1 as [desc c1]. cbn [snd] in H1.
  destruct H1 as (o1 & Ho1 & Hr1 & Hv1).
  destruct (_ && _); [|by exists o1].
  set (shorts := Split _ ","). set (c2 := updOpt name _ c1).
  destruct (updOpt_keeps name (FlagOpt.set_Shortcuts shorts) c1 n o1)
    as (o2 & Ho2 & Hr2 & Hv2); [done..|].
  destruct (addShortcuts_frame name shorts c2) as (Hb & _).
  exists o2.
  destruct (addShortcuts name shorts c2) as [[[]|m] c3]; cbn in *;
    rewrite Hb; (split; [done|]); (split; [tauto|congruence]).
Qed.

Lemma prepare_visit_keeps_marks flags : forall c n o,
  bindOpts c !! n = Some o ->
  exists o', bindOpts (prepare_visit flags c).2 !! n = Some o' /\
    (FlagOpt.Required o = true -> FlagOpt.Required o' = true) /\
    FlagOpt.Validator o' = FlagOpt.Validator o.
Proof.
  induction flags as [|f flags IH]; intros c n o Ho; cbn [prepare_visit].
  - by exists o.
  - destruct (shortcuts c !! Flag.Name f); [by exists o|].
    destruct (parseFlagUsage_keeps_marks (Flag.Name f) (Flag.Usage f) c n o Ho)
      as (o1 & Ho1 & Hr1 & Hv1).
    destruct (parseFlagUsage _ _ c) as [[d|m] c1]; [|by exists o1].
    destruct (IH (set_flagset (fs_SetUsage (Flag.Name f) d (flagset c1)) c1)
                n o1 Ho1) as (o2 & Ho2 & Hr2 & Hv2).
    exists o2. split; [done|]. split; [tauto|congruence].
Qed.

(** X23.  [prepare] never drops an option binding, never clears a required
    mark and never changes a validator: whatever the usage texts say, a
    binding configured before is still there, required if it was, with the
    validator it had. *)
Theorem prepare_keeps_marks c n o :
  bindOpts c !! n = Some o ->
  exists o', bindOpts (prepare c).2 !! n = Some o' /\
    (FlagOpt.Required o = true -> FlagOpt.Required o' = true) /\
    FlagOpt.Validator o' = FlagOpt.Validator o.
Proof. apply prepare_visit_keeps_marks. Qed.

(** X24.  When the flag engine returns an error, [Parse] stops there: no
    option is checked, no argument is bound, the remainder is left alone
    and the callback is not run.  A help request comes back as [nil], any
    other error as it is. *)
Theorem Parse_stops_at_engine_error Func args c c1 fs e :
  prepare c = (Ok tt, c1) ->
  fs_Parse (shortArgs c1 args) (flagset c1) = (fs, Some e) ->
  Parse Func (Some args) c
    = (Returned (match e with ErrHelp => None | Raw _ => Some e end),
       set_flagset fs c1).
Proof.
  intros Hprep Hparse. unfold Parse. cbn [parseArgs]. rewrite Hprep.
  unfold doParse. rewrite Hparse. by destruct e.
Qed.

End BinderFacts.

(** ** The spec-modelled helpers *)

Lemma AddPrefix_spec_inj k k' :
  AddPrefix_spec k = AddPrefix_spec k' -> k = k'.
Proof.
  unfold AddPrefix_spec, len.
  destruct (Z.gtb_spec (Z.of_nat (String.length k)) 1) as [Hk|Hk],
           (Z.gtb_spec (Z.of_nat (String.length k')) 1) as [Hk'|Hk'];
    cbn; intros [= Heq]; try done.
  - change (String "-" k = k') in Heq. rewrite <- Heq in Hk'.
    cbn [String.length] in Hk'. lia.
  - change (k = String "-" k') in Heq. rewrite Heq in Hk.
    cbn [String.length] in Hk. lia.
Qed.

Lemma SplitN_length sep l : forall n, (length (SplitN sep n l) <= n)%nat.
Proof.
  induction l as [|a l IH]; intros [|[|n]]; cbn; try lia.
  destruct (bool_decide (a = sep)).
  - cbn. specialize (IH (S n)). lia.
  - specialize (IH (S (S n))). cbn in IH.
    destruct l as [|b l]; cbn in *.
    + lia.
    + destruct (bool_decide (b = sep)); [cbn in *; lia|].
      destruct (match SplitN sep (S (S n)) l with
                | [] => [[b]] | p :: ps => (b :: p) :: ps end);
        cbn in *; lia.
Qed.

Lemma SplitNTrimmed_spec_limit s sep n :
  0 < n -> len_list (SplitNTrimmed_spec s sep n) <= n.
Proof.
  intros Hn. unfold SplitNTrimmed_spec, len_list. rewrite length_map.
  pose proof (SplitN_length (sep_byte sep) (list_ascii_of_string s) (Z.to_nat n)).
  lia.
Qed.

(** ** The claims at concrete binders *)

Section Evaluated.
Existing Instance goflag.engine.
Existing Instance helpers_spec.
Existing Instance process_xy.

Lemma BindArgs_indices_witness :
  size (bindArgs binder_name_tag) = 2%nat /\
  forall i a, [arg_name; arg_tag] !! i = Some a ->
    bindArgs binder_name_tag !! FlagArg.Name a
      = Some (FlagArg.set_Index (Z.of_nat i) a).
Proof.
  apply (BindArgs_indices (FE := goflag.engine) no_flags [arg_name; arg_tag] binder_name_tag).
  vm_compute. reflexivity.
Defined.

Lemma declares_B_x : declares "B;false;x" "x".
Proof.
  repeat split; try (vm_compute; reflexivity).
  apply (bool_decide_unpack _). vm_compute. exact I.
Qed.

Lemma duplicate_registration_panics_witness :
  ((exists m, (addShortcuts "other" ["x"; "n"] binder_n).1 = Panic m) /\
   (exists m, (AddShortcuts "other" ["x"; "n"] binder_n).1 = Panic m)) /\
  shortcuts (AddShortcuts "other" ["x"; "n"] binder_n).2 !! "n"
    = Some "name" /\
  (forall args,
     shortcuts (Parse (MO := order_fwd) None args binder_n).2 !! "n"
       = Some "name") /\
  (exists m,
     (prepare binder_aa_x).1 = Panic m /\
     Parse (MO := order_fwd) None (Some []) binder_aa_x
       = (Recovered m, (prepare binder_aa_x).2)) /\
  (exists m, (BindArg (new_arg arg_a) binder_ab).1 = Panic m) /\
  (exists m, (BindArg (held_arg "a") binder_ab).1 = Panic m).
Proof.
  destruct (duplicate_registration_panics (FE := goflag.engine)
              (MO := order_fwd) binder_n) as [Hshort _].
  destruct (Hshort "n" "name" eq_refl)
    as (Hadd & _ & _ & Hkeep & _ & _ & _ & Hparse).
  destruct (duplicate_registration_panics (FE := goflag.engine)
              (MO := order_fwd) binder_aa_x) as [Hshort' _].
  destruct (Hshort' "x" "aa" eq_refl) as (_ & _ & Husage & _).
  destruct (duplicate_registration_panics (FE := goflag.engine)
              (MO := order_fwd) binder_ab) as (_ & Harg & _).
  split; [|split; [|split; [|split; [|split]]]].
  - apply Hadd. apply (bool_decide_unpack _). vm_compute. exact I.
  - apply Hkeep.
  - exact Hparse.
  - apply (Husage (Flag.mk "bb" "B;false;x" "" (Some (any_string "")))).
    + vm_compute. apply elem_of_cons. right. apply elem_of_cons. by left.
    + exact declares_B_x.
  - apply (Harg (new_arg arg_a) arg_a eq_refl). eexists. vm_compute.
    reflexivity.
  - apply (Harg (held_arg "a") (FlagArg.set_Index 0 arg_a)).
    + vm_compute. reflexivity.
    + eexists. vm_compute. reflexivity.
Defined.

(** C7 as stated fails for a shortcut that two usage texts declare.  The
    usage text of [aa] registers [x]; the usage text of [bb] declares [x]
    again and the registration panics; [Parse] recovers the panic and
    returns [nil] to its caller, so that the program goes on. *)
Lemma usage_text_duplicate_is_recovered :
  let r := Parse (MO := order_fwd) None (Some []) binder_dup in
  shortcuts (parseFlagUsage "aa" "A;false;x" binder_dup).2 !! "x" = Some "aa" /\
  declares "B;false;x" "x" /\
  r.1 = Recovered "cflag: shortcut 'x' has been used by option 'aa'" /\
  (forall m, r.1 <> Crashed m) /\
  returned r.1 = Some None /\
  shortcuts r.2 !! "x" = Some "aa".
Proof.
  cbv zeta. split; [vm_compute; reflexivity|].
  split; [exact declares_B_x|].
  split; [vm_compute; reflexivity|].
  split; [intros m; vm_compute; discriminate|].
  split; vm_compute; reflexivity.
Qed.

Lemma replaceShorts_after_terminator_witness :
  exists pre', length pre' = 2%nat /\
    replaceShorts (MO := order_fwd) binder_n (["-n"; "v"] ++ "--" :: ["-n"; "w"])
      = pre' ++ "--" :: ["-n"; "w"].
Proof.
  apply (replaceShorts_after_terminator (FE := goflag.engine) (MO := order_fwd)
           binder_n ["-n"; "v"] ["-n"; "w"]).
  apply (bool_decide_unpack _). vm_compute. exact I.
Defined.

Lemma parseFlagUsage_mini_format_witness :
  let r := parseFlagUsage "age" "your age;true;a" binder_age in
  len_list (SplitNTrimmed "your age;true;a" ";" 3) <= 3 /\
  (forall p1, SplitNTrimmed "your age;true;a" ";" 3 !! 1%nat = Some p1 ->
     Bool p1 = Some true ->
     FlagOpt.Required <$> bindOpts r.2 !! "age" = Some true) /\
  (forall p2, SplitNTrimmed "your age;true;a" ";" 3 !! 2%nat = Some p2 ->
     p2 <> "" ->
     FlagOpt.Shortcuts <$> bindOpts r.2 !! "age" = Some (Split p2 ",") /\
     (forall d, r.1 = Ok d ->
        forall t, t ∈ Split p2 "," -> shortcuts r.2 !! t = Some "age") /\
     (NoDup (Split p2 ",") ->
      (forall t, t ∈ Split p2 "," -> shortcuts binder_age !! t = None) ->
      exists d, r.1 = Ok d)).
Proof.
  apply (parseFlagUsage_mini_format (FE := goflag.engine) "age" "your age;true;a" binder_age).
  - exact SplitNTrimmed_spec_limit.
  - vm_compute. reflexivity.
Defined.

Lemma Parse_nil_takes_process_args_witness :
  Parse (MO := order_fwd) None None binder_age
    = Parse (MO := order_fwd) None (Some ["x"; "y"]) binder_age /\
  forall l, parseArgs (Some l) = Ok l.
Proof.
  apply (Parse_nil_takes_process_args (FE := goflag.engine) (MO := order_fwd)
           None binder_age "prog" ["x"; "y"]).
  reflexivity.
Defined.

Lemma shortcut_parses_as_full_name_witness :
  doParse (MO := order_fwd) ["-" +:+ "n"; "v"] binder_n
    = doParse (MO := order_fwd) ["--" +:+ "name"; "v"] binder_n.
Proof.
  apply (shortcut_parses_as_full_name (FE := goflag.engine) (MO := order_fwd) binder_n "n" "name" "v").
  - vm_compute. reflexivity.
  - vm_compute. reflexivity.
  - exact AddPrefix_spec_inj.
  - reflexivity.
  - discriminate.
  - reflexivity.
  - discriminate.
Defined.

Lemma index_order_binder_alpine :
  index_order (range (MapOrder := order_fwd) (bindArgs binder_alpine)).
Proof.
  intros i name a Hi.
  destruct i as [|[|i]]; vm_compute in Hi; [| |discriminate];
    injection Hi as <- <-; reflexivity.
Qed.

Lemma missing_argument_in_index_order_witness :
  (bindParsedArgs (MO := order_fwd) binder_alpine).1 = Ok None /\
  RemainArgs (bindParsedArgs (MO := order_fwd) binder_alpine).2
    = RemainArgs binder_alpine /\
  bindArgs (bindParsedArgs (MO := order_fwd) binder_alpine).2 !! "tag"
    = Some (FlagArg.set_Index 1 arg_tag).
Proof.
  destruct (missing_argument_in_index_order (FE := goflag.engine)
              (MO := order_fwd) binder_alpine 1 "tag"
              (FlagArg.set_Index 1 arg_tag)) as [_ Hopt].
  - exact index_order_binder_alpine.
  - reflexivity.
  - vm_compute. reflexivity.
  - intros j n a Hj Hin Hreq. destruct j as [|j]; [|lia].
    vm_compute in Hin. injection Hin as <- <-. vm_compute. discriminate.
  - destruct (Hopt eq_refl) as (Hres & Hrem & _ & Hlater).
    split; [exact Hres|]. split; [exact Hrem|].
    apply (Hlater 1%nat); [lia|]. vm_compute. reflexivity.
Defined.

Lemma optional_argument_visited_first_ends_walk_witness :
  let c2 := (bindParsedArgs (MO := order_rev)
               (set_flagset no_flags binder_name_tag)).2 in
  bindParsedArgs (MO := order_rev) (set_flagset no_flags binder_name_tag)
    = (Ok None, c2) /\
  bindArgs c2 = bindArgs binder_name_tag /\
  Parse (MO := order_rev) None (Some []) binder_name_tag = (Returned None, c2).
Proof.
  apply (optional_argument_visited_first_ends_walk (FE := goflag.engine)
           (MO := order_rev) None [] binder_name_tag binder_name_tag no_flags
           "tag" (FlagArg.set_Index 1 arg_tag)
           [("name", FlagArg.set_Index 0 arg_name)]
           "name" (FlagArg.set_Index 0 arg_name)).
  - vm_compute. reflexivity.
  - vm_compute. reflexivity.
  - vm_compute. reflexivity.
  - vm_compute. reflexivity.
  - reflexivity.
  - vm_compute. discriminate.
  - apply elem_of_cons. by left.
  - reflexivity.
  - reflexivity.
Defined.

Lemma single_leftover_token_is_not_collected_witness :
  (bindParsedArgs (MO := order_fwd) binder_x).1 = Ok None /\
  RemainArgs (bindParsedArgs (MO := order_fwd) binder_x).2 = [] /\
  drop (size (bindArgs binder_x)) (fs_Args (flagset binder_x)) <> [].
Proof.
  apply (single_leftover_token_is_not_collected (FE := goflag.engine)
           (MO := order_fwd) binder_x).
  - intros name a Hin. vm_compute in Hin. discriminate.
  - reflexivity.
Defined.

Lemma required_option_is_reported_witness :
  exists n o g e,
    bindOpts (prepare binder_age).2 !! n = Some o /\
    fs_Lookup n (flagset (prepare binder_age).2) = Some g /\
    rejects o g = true /\ names e n /\
    Parse (MO := order_fwd) None (Some []) binder_age
      = (Returned (Some e),
         set_flagset (flagset (prepare binder_age).2) (prepare binder_age).2) /\
    ((forall n' o' g', n' <> "age" ->
        bindOpts (prepare binder_age).2 !! n' = Some o' ->
        fs_Lookup n' (flagset (prepare binder_age).2) = Some g' ->
        rejects o' g' = false) ->
     e = Raw ("flag option '" +:+ "age" +:+ "' is required")).
Proof.
  apply (required_option_is_reported (FE := goflag.engine) (MO := order_fwd)
           None [] binder_age (prepare binder_age).2
           (flagset (prepare binder_age).2) "age"
           (FlagOpt.mk true ["a"] None)
           (Flag.mk "age" "<red>*</>your age" "" (Some (any_string "")))).
  - vm_compute. reflexivity.
  - vm_compute. reflexivity.
  - intros n [o Ho]. destruct (decide (n = "age")) as [->|Hne].
    + eexists. vm_compute. reflexivity.
    + exfalso.
      change (bindOpts (prepare binder_age).2)
        with (<["age" := FlagOpt.mk true ["a"] None]>
                (∅ : gmap string FlagOpt.t)) in Ho.
      rewrite lookup_insert_ne, lookup_empty in Ho by done. discriminate.
  - vm_compute. reflexivity.
  - reflexivity.
  - vm_compute. reflexivity.
  - reflexivity.
Defined.

(** A required argument whose token is the empty string is reported as a
    missing one.  [a] and [b] are required and visited in index order, the
    one token left is empty: argument 1 is required and has no token, and
    the error names argument [a] and index 0, not [b] and index 1. *)
Lemma earlier_empty_token_is_reported_first :
  index_order (range (MapOrder := order_fwd) (bindArgs binder_ab_empty)) /\
  length (fs_Args (flagset binder_ab_empty)) = 1%nat /\
  range (MapOrder := order_fwd) (bindArgs binder_ab_empty) !! 1%nat
    = Some ("b", FlagArg.set_Index 1 arg_b) /\
  FlagArg.Required (FlagArg.set_Index 1 arg_b) = true /\
  (bindParsedArgs (MO := order_fwd) binder_ab_empty).1
    = Ok (Some (Raw "argument 'a'(#0) is required")) /\
  (bindParsedArgs (MO := order_fwd) binder_ab_empty).1
    <> Ok (Some (argRequired "b" 1)) /\
  (Parse (MO := order_fwd) None (Some [""]) binder_ab).1
    = Returned (Some (Raw "argument 'a'(#0) is required")).
Proof.
  split.
  { intros i name a Hi.
    destruct i as [|[|i]]; vm_compute in Hi; [| |discriminate];
      injection Hi as <- <-; reflexivity. }
  repeat split; try (vm_compute; reflexivity).
  vm_compute. discriminate.
Qed.

(** C3 as stated fails for a shortcut of more than one character under the
    prefix convention: [nm] is a registered shortcut of [name], yet [-nm v]
    is not rewritten and the flag engine rejects it, while [--name v]
    parses. *)
Lemma long_shortcut_is_not_replaced :
  shortcuts binder_nm !! "nm" = Some "name" /\
  (Parse (MO := order_fwd) None (Some ["-nm"; "v"]) binder_nm).1
    = Returned (Some (Raw "flag provided but not defined: -nm")) /\
  (Parse (MO := order_fwd) None (Some ["--name"; "v"]) binder_nm).1
    = Returned None /\
  (doParse (MO := order_fwd) ["-nm"; "v"] binder_nm).1
    <> (doParse (MO := order_fwd) ["--name"; "v"] binder_nm).1.
Proof.
  repeat split; try (vm_compute; reflexivity).
  vm_compute. discriminate.
Qed.

(** C5 as stated fails for the second of two required options left empty:
    [a] and [b] are both required and empty after parsing, the error names
    [a], and no error names [b]. *)
Lemma second_required_option_is_not_named :
  let r := Parse (MO := order_fwd) None (Some []) binder_opts_ab in
  r.1 = Returned (Some (Raw "flag option 'a' is required")) /\
  (exists opt f,
     bindOpts r.2 !! "b" = Some opt /\ FlagOpt.Required opt = true /\
     fs_Lookup "b" (flagset r.2) = Some f /\ Flag.String_ f = "") /\
  ~ (exists e, r.1 = Returned (Some e) /\ names e "b").
Proof.
  cbv zeta. split; [vm_compute; reflexivity|]. split.
  - do 2 eexists. repeat split; vm_compute; reflexivity.
  - intros (e & He & tail & Hname). vm_compute in He.
    injection He as <-. cbn in Hname. discriminate.
Qed.

(** C9 as stated fails for the empty list: in a process started as
    [prog x y], [Parse(nil)] leaves the tokens [x y] while [Parse] of the
    empty list leaves none. *)
Lemma Parse_empty_list_is_not_defaulted :
  os_Args = ["prog"; "x"; "y"] /\
  fs_Args (flagset (Parse (MO := order_fwd) None None (New no_flags)).2)
    = ["x"; "y"] /\
  fs_Args (flagset (Parse (MO := order_fwd) None (Some []) (New no_flags)).2)
    = [] /\
  (Parse (MO := order_fwd) None (Some []) (New no_flags)).2
    <> (Parse (MO := order_fwd) None None (New no_flags)).2.
Proof.
  repeat split; try reflexivity.
  intros Heq. apply (f_equal (fun c => fs_Args (flagset c))) in Heq.
  vm_compute in Heq. discriminate.
Qed.

(** The walk of [bindParsedArgs] goes as the map order goes.  With the
    binder of the spec's example and no token, an order that visits the
    optional [tag] before the required [name] stops at [tag] and reports
    nothing, where the index order reports [name]; with the token [alpine]
    it leaves [name] without its token, where the index order assigns it;
    and with two required arguments and no token it reports the second
    one, where the index order reports the first. *)
Lemma unordered_walk_misses_required_argument :
  (Parse (MO := order_rev) None (Some []) binder_name_tag).1 = Returned None /\
  (Parse (MO := order_fwd) None (Some []) binder_name_tag).1
    = Returned (Some (Raw "argument 'name'(#0) is required")) /\
  (Parse (MO := order_rev) None (Some ["alpine"]) binder_name_tag).1
    = Returned None /\
  FlagArg.V <$>
    bindArgs (Parse (MO := order_rev) None (Some ["alpine"]) binder_name_tag).2
      !! "name" = Some any_nil /\
  FlagArg.V <$>
    bindArgs (Parse (MO := order_fwd) None (Some ["alpine"]) binder_name_tag).2
      !! "name" = Some (any_string "alpine") /\
  (Parse (MO := order_rev) None (Some []) binder_ab).1
    = Returned (Some (Raw "argument 'b'(#1) is required")) /\
  (Parse (MO := order_fwd) None (Some []) binder_ab).1
    = Returned (Some (Raw "argument 'a'(#0) is required")).
Proof. repeat split; vm_compute; reflexivity. Qed.

(** The examples of the specification, evaluated. *)
Example example_age_shortcut :
  let r := Parse (MO := order_fwd) None (Some ["-a"; "30"]) binder_age in
  r.1 = Returned None /\
  Flag.String_ <$> fs_Lookup "age" (flagset r.2) = Some "30".
Proof. split; vm_compute; reflexivity. Qed.

Example example_age_missing :
  (Parse (MO := order_fwd) None (Some []) binder_age).1
    = Returned (Some (Raw "flag option 'age' is required")).
Proof. vm_compute. reflexivity. Qed.

Example example_alpine :
  let r := Parse (MO := order_fwd) None (Some ["alpine"]) binder_name_tag in
  r.1 = Returned None /\
  FlagArg.V <$> bindArgs r.2 !! "name" = Some (any_string "alpine") /\
  FlagArg.V <$> bindArgs r.2 !! "tag" = Some (any_string "latest") /\
  RemainArgs r.2 = [].
Proof. repeat split; vm_compute; reflexivity. Qed.

Lemma AddShortcuts_undeclared_still_registers_witness :
  (exists m, (AddShortcuts "ghost" ["g"] (New (FE := goflag.engine) no_flags)).1 = Panic m) /\
  forall t, t ∈ ["g"] ->
    shortcuts (AddShortcuts "ghost" ["g"] (New (FE := goflag.engine) no_flags)).2 !! t = Some "ghost".
Proof.
  apply (AddShortcuts_undeclared_still_registers (FE := goflag.engine)
           "ghost" ["g"] (New (FE := goflag.engine) no_flags)).
  - reflexivity.
  - apply (bool_decide_unpack _). vm_compute. exact I.
  - intros t _. apply lookup_empty.
Defined.

Lemma AddShortcuts_then_replaceShorts_witness :
  shortcuts binder_n !! "n" = Some "name" /\
  FlagOpt.Shortcuts <$> bindOpts binder_n !! "name"
    = Some (FlagOpt.Shortcuts
              (default FlagOpt.empty (bindOpts (New (FE := goflag.engine) flags_name) !! "name"))
            ++ ["n"]) /\
  replaceShorts (MO := order_fwd) binder_n (AddPrefix "n" :: ["v"])
    = AddPrefix "name" :: replaceShorts (MO := order_fwd) binder_n ["v"].
Proof.
  apply (AddShortcuts_then_replaceShorts (FE := goflag.engine)
           (MO := order_fwd) "name" ["n"] (New (FE := goflag.engine) flags_name) binder_n "n" ["v"]).
  - vm_compute. reflexivity.
  - exact AddPrefix_spec_inj.
  - apply (bool_decide_unpack _). vm_compute. exact I.
  - reflexivity.
  - discriminate.
Defined.

Lemma shortArgs_unmatched_witness :
  shortArgs (MO := order_fwd) (New (FE := goflag.engine) no_flags) ["-v"; "x"] = ["-v"; "x"].
Proof.
  apply (shortArgs_unmatched (FE := goflag.engine) (MO := order_fwd)
           (New (FE := goflag.engine) no_flags) ["-v"; "x"]).
  intros a short _ [o Ho]. cbn in Ho. rewrite lookup_empty in Ho. discriminate.
Defined.

Lemma BindArgs_argWidth_covers_names_witness :
  12 <= argWidth binder_name_tag /\
  forall name, is_Some (bindArgs binder_name_tag !! name) ->
    len name <= argWidth binder_name_tag.
Proof.
  apply (BindArgs_argWidth_covers_names (FE := goflag.engine)
           no_flags [arg_name; arg_tag] binder_name_tag).
  vm_compute. reflexivity.
Defined.

Lemma BindArg_frame_witness :
  (exists m, (BindArg (held_arg "a") binder_ab).1 = Panic m) /\
  bindArgs binder_ab !! "a" = Some (FlagArg.set_Index 0 arg_a) /\
  bindArgs (BindArg (held_arg "a") binder_ab).2 !! "a"
    = Some (FlagArg.set_Index 2 arg_a) /\
  (BindArg (new_arg arg_a) binder_ab).2 = binder_ab.
Proof.
  destruct (BindArg_frame (FE := goflag.engine) binder_ab)
    as (_ & Hnew & Hheld).
  destruct (Hheld "a" (FlagArg.set_Index 0 arg_a) eq_refl)
    as (Hpanic & Hidx & _).
  split; [apply Hpanic; eexists; vm_compute; reflexivity|].
  split; [vm_compute; reflexivity|].
  split; [rewrite Hidx; vm_compute; reflexivity|].
  apply (Hnew arg_a). eexists. vm_compute. reflexivity.
Defined.

Lemma assignable_binder_ab_xyzw name a :
  bindArgs binder_ab_xyzw !! name = Some a ->
  assignable (fs_Args (flagset binder_ab_xyzw)) a.
Proof.
  intros Ha.
  change (bindArgs binder_ab_xyzw)
    with (<["b" := FlagArg.set_Index 1 arg_b]>
            (<["a" := FlagArg.set_Index 0 arg_a]>
               (∅ : gmap string FlagArg.t))) in Ha.
  apply lookup_insert_Some in Ha as [[_ <-]|[_ Ha]].
  { split; [split; by vm_compute|intros _; by vm_compute]. }
  apply lookup_insert_Some in Ha as [[_ <-]|[_ Ha]].
  { split; [split; by vm_compute|intros _; by vm_compute]. }
  by rewrite lookup_empty in Ha.
Qed.

Lemma bindParsedArgs_assigns_all_witness :
  (bindParsedArgs (MO := order_rev) binder_ab_xyzw).1 = Ok None /\
  forall name a, bindArgs binder_ab_xyzw !! name = Some a ->
    bindArgs (bindParsedArgs (MO := order_rev) binder_ab_xyzw).2 !! name
      = Some (FlagArg.set_V
                (any_string (nth (Z.to_nat (FlagArg.Index a))
                               (fs_Args (flagset binder_ab_xyzw)) "")) a).
Proof.
  apply (bindParsedArgs_assigns_all (FE := goflag.engine) (MO := order_rev)
           binder_ab_xyzw).
  exact assignable_binder_ab_xyzw.
Defined.

Lemma bindParsedArgs_remainder_witness :
  RemainArgs (bindParsedArgs (MO := order_rev) binder_ab_xyzw).2
    = drop (size (bindArgs binder_ab_xyzw)) (fs_Args (flagset binder_ab_xyzw)).
Proof.
  apply (bindParsedArgs_remainder (FE := goflag.engine) (MO := order_rev)
           binder_ab_xyzw).
  - exact assignable_binder_ab_xyzw.
  - vm_compute. lia.
Defined.

Lemma sole_missing_required_argument_is_reported_witness :
  (bindParsedArgs (MO := order_rev) binder_ab_x).1
    = Ok (Some (argRequired "b" (FlagArg.Index (FlagArg.set_Index 1 arg_b)))).
Proof.
  apply (sole_missing_required_argument_is_reported (FE := goflag.engine)
           (MO := order_rev) binder_ab_x "b" (FlagArg.set_Index 1 arg_b)).
  - vm_compute. reflexivity.
  - reflexivity.
  - vm_compute. discriminate.
  - intros [[_ Hlt] _]. vm_compute in Hlt. discriminate.
  - intros n' a' Hne Ha.
    change (bindArgs binder_ab_x)
      with (<["b" := FlagArg.set_Index 1 arg_b]>
              (<["a" := FlagArg.set_Index 0 arg_a]>
                 (∅ : gmap string FlagArg.t))) in Ha.
    apply lookup_insert_Some in Ha as [[? _]|[_ Ha]]; [congruence|].
    apply lookup_insert_Some in Ha as [[_ <-]|[_ Ha]].
    + split; [split; by vm_compute|intros _; by vm_compute].
    + by rewrite lookup_empty in Ha.
Defined.

Lemma declared_binder_root n :
  is_Some (bindOpts binder_root !! n) ->
  is_Some (fs_Lookup n (flagset binder_root)).
Proof.
  intros [o Ho].
  change (bindOpts binder_root)
    with (<["name" := FlagOpt.mk false [] (Some no_root)]>
            (∅ : gmap string FlagOpt.t)) in Ho.
  apply lookup_insert_Some in Ho as [[<- _]|[_ Ho]].
  - eexists. vm_compute. reflexivity.
  - by rewrite lookup_empty in Ho.
Qed.

Lemma checkBindOpts_passes_iff_witness :
  checkBindOpts (MO := order_fwd) binder_root = Ok None <->
  forall n o g, bindOpts binder_root !! n = Some o ->
    fs_Lookup n (flagset binder_root) = Some g -> rejects o g = false.
Proof.
  apply (checkBindOpts_passes_iff (FE := goflag.engine) (MO := order_fwd)
           binder_root).
  exact declared_binder_root.
Defined.

Lemma AddValidator_then_checkBindOpts_witness :
  checkBindOpts (MO := order_fwd) binder_root
    = Ok (Some (Raw ("flag option '" +:+ "name" +:+ "': " +:+ "reserved"))).
Proof.
  apply (AddValidator_then_checkBindOpts (FE := goflag.engine)
           (MO := order_fwd) "name" no_root
           (New (FE := goflag.engine)
              (goflag.declare "name" "root" "your name" no_flags))
           binder_root
           (Flag.mk "name" "your name" "root" (Some (any_string "root")))
           (any_string "root") "reserved").
  - vm_compute. reflexivity.
  - exact declared_binder_root.
  - vm_compute. reflexivity.
  - discriminate.
  - reflexivity.
  - reflexivity.
  - intros n o g Hne Ho.
    change (bindOpts binder_root)
      with (<["name" := FlagOpt.mk false [] (Some no_root)]>
              (∅ : gmap string FlagOpt.t)) in Ho.
    apply lookup_insert_Some in Ho as [[? _]|[_ Ho]]; [congruence|].
    by rewrite lookup_empty in Ho.
Defined.

Lemma Parse_recovers_name_collision_witness :
  (exists m, (prepare binder_collision).1 = Panic m) /\
  (exists m, (Parse (MO := order_fwd) None (Some ["-n"; "3"])
                binder_collision).1 = Recovered m) /\
  returned (Parse (MO := order_fwd) None (Some ["-n"; "3"])
              binder_collision).1 = Some None /\
  (Parse (MO := order_fwd) None (Some ["-n"; "3"]) binder_collision).2
    = (prepare binder_collision).2.
Proof.
  apply (Parse_recovers_name_collision (FE := goflag.engine) (MO := order_fwd)
           None ["-n"; "3"] binder_collision
           (Flag.mk "n" "count" "" (Some (any_string ""))) "name").
  - vm_compute. apply elem_of_cons. by left.
  - vm_compute. reflexivity.
Defined.

Lemma prepare_keeps_marks_witness :
  exists o', bindOpts (prepare binder_root).2 !! "name" = Some o' /\
    (FlagOpt.Required (FlagOpt.mk false [] (Some no_root)) = true ->
     FlagOpt.Required o' = true) /\
    FlagOpt.Validator o' = FlagOpt.Validator (FlagOpt.mk false [] (Some no_root)).
Proof.
  apply (prepare_keeps_marks (FE := goflag.engine) binder_root "name"
           (FlagOpt.mk false [] (Some no_root))).
  vm_compute. reflexivity.
Defined.

Lemma Parse_stops_at_engine_error_witness :
  Parse (MO := order_fwd) None (Some ["-nm"; "v"]) binder_nm
    = (Returned (Some (Raw "flag provided but not defined: -nm")),
       set_flagset
         (fs_Parse (shortArgs (MO := order_fwd) (prepare binder_nm).2
                      ["-nm"; "v"]) (flagset (prepare binder_nm).2)).1
         (prepare binder_nm).2).
Proof.
  apply (Parse_stops_at_engine_error (FE := goflag.engine) (MO := order_fwd)
           None ["-nm"; "v"] binder_nm (prepare binder_nm).2
           (fs_Parse (shortArgs (MO := order_fwd) (prepare binder_nm).2
                        ["-nm"; "v"]) (flagset (prepare binder_nm).2)).1
           (Raw "flag provided but not defined: -nm")).
  - vm_compute. reflexivity.
  - vm_compute. reflexivity.
Defined.

End Evaluated.

End cflag.

(* ===================================================================== *)
(** * Properties of [Utf8Split]                                            *)
(* ===================================================================== *)

Module strutil_props.
Import strutil.

Local Open Scope string_scope.
Local Open Scope list_scope.
Local Open Scope Z_scope.

Lemma append_cons a s t : String a s +:+ t = String a (s +:+ t).
Proof. reflexivity. Qed.

Lemma append_nil_r s : s +:+ "" = s.
Proof. induction s as [|a s IH]; [done|]. by rewrite append_cons, IH. Qed.

Lemma append_assoc s t u : (s +:+ t) +:+ u = s +:+ t +:+ u.
Proof. induction s as [|a s IH]; [done|]. by rewrite !append_cons, IH. Qed.

Lemma join_snoc ss x : join (ss ++ [x]) = join ss +:+ x.
Proof.
  induction ss as [|y ss IH]; cbn [app join fold_right].
  - apply append_nil_r.
  - fold (join (ss ++ [x])). fold (join ss). by rewrite IH, append_assoc.
Qed.

Section SplitFacts.
Context `{WT : WidthTable} `{IS : IntSize}.

Lemma RuneWidth_nonneg r : 0 <= RuneWidth r.
Proof. unfold RuneWidth. destruct (LookupRune r); lia. Qed.

Lemma width_sum_nonneg rs : 0 <= width_sum rs.
Proof.
  induction rs as [|r rs IH]; cbn; [lia|].
  pose proof (RuneWidth_nonneg r). unfold width_sum in IH. lia.
Qed.

Lemma width_sum_zero rs :
  width_sum rs <= 0 -> forall r, r ∈ rs -> RuneWidth r = 0.
Proof.
  induction rs as [|x rs IH]; intros Hsum r Hr.
  - by apply elem_of_nil in Hr.
  - cbn in Hsum. fold (width_sum rs) in Hsum.
    pose proof (RuneWidth_nonneg x). pose proof (width_sum_nonneg rs).
    apply elem_of_cons in Hr as [->|Hr]; [lia|]. apply IH; [lia|done].
Qed.

Lemma encode_all_snoc rs r :
  encode_all (rs ++ [r]) = encode_all rs +:+ string_of_rune r.
Proof. unfold encode_all. rewrite map_app. cbn [map]. apply join_snoc. Qed.

Lemma width_sum_snoc rs r : width_sum (rs ++ [r]) = width_sum rs + RuneWidth r.
Proof.
  induction rs as [|x rs IH]; cbn; [lia|].
  fold (width_sum (rs ++ [r])). fold (width_sum rs). lia.
Qed.

(** The loop of [Utf8Split] keeps every rune it has read, in order, in the
    chunks or in the pending [tmpS]; [tmpW] is the width of [tmpS]; and
    what is pending after a rune has been read is empty or ends with the
    last rune read. *)
Lemma split_fold_keeps w rs : forall tmpW tmpS ss cur,
  tmpS = encode_all cur -> tmpW = width_sum cur ->
  exists tmpW' cur' ss',
    fold_left (split_step w) rs (tmpW, tmpS, ss)
      = (tmpW', encode_all cur', ss') /\
    tmpW' = width_sum cur' /\
    join ss' +:+ encode_all cur' = (join ss +:+ tmpS) +:+ encode_all rs /\
    (rs = [] -> cur' = cur) /\
    (rs <> [] -> cur' = [] \/ last cur' = last rs).
Proof.
  induction rs as [|r rs IH]; intros tmpW tmpS ss cur HS HW.
  - exists tmpW, cur, ss. subst. by rewrite append_nil_r.
  - cbn [fold_left]. unfold split_step at 2.
    assert (Hcons : forall x, x +:+ encode_all (r :: rs)
                     = (x +:+ string_of_rune r) +:+ encode_all rs).
    { intros x. by rewrite append_assoc. }
    assert (Hlast : forall cur0 cur' : list rune,
              last cur0 = Some r ->
              (rs = [] -> cur' = cur0) ->
              (rs <> [] -> cur' = [] \/ last cur' = last rs) ->
              cur' = [] \/ last cur' = last (r :: rs)).
    { intros cur0 cur' H0 He Hne. destruct rs as [|r' rs'].
      - right. rewrite He by done. by rewrite H0.
      - destruct Hne as [->|Hl]; [done|by left|]. right. by rewrite Hl. }
    assert (Hlast0 : forall cur' : list rune,
              (rs = [] -> cur' = []) ->
              (rs <> [] -> cur' = [] \/ last cur' = last rs) ->
              cur' = [] \/ last cur' = last (r :: rs)).
    { intros cur' He Hne. destruct rs as [|r' rs'].
      - left. by apply He.
      - destruct Hne as [->|Hl]; [done|by left|]. right. by rewrite Hl. }
    destruct (tmpW + RuneWidth r =? w).
    + destruct (IH 0 "" (ss ++ [tmpS +:+ string_of_rune r]) [])
        as (tw & cur' & ss' & Hf & Hw & Hj & He & Hne); [done..|].
      exists tw, cur', ss'. rewrite Hf. split; [done|]. split; [done|].
      split; [|split; [done|intros _; by apply Hlast0]].
      rewrite Hj, join_snoc, append_nil_r, Hcons. by rewrite !append_assoc.
    + destruct (tmpW + RuneWidth r >? w).
      * destruct (IH (RuneWidth r) (string_of_rune r) (ss ++ [tmpS]) [r])
          as (tw & cur' & ss' & Hf & Hw & Hj & He & Hne).
        { cbn. by rewrite append_nil_r. }
        { cbn. lia. }
        exists tw, cur', ss'. rewrite Hf. split; [done|]. split; [done|].
        split; [|split; [done|intros _; by apply (Hlast [r])]].
        by rewrite Hj, join_snoc, Hcons.
      * destruct (IH (tmpW + RuneWidth r) (tmpS +:+ string_of_rune r) ss
                    (cur ++ [r])) as (tw & cur' & ss' & Hf & Hw & Hj & He & Hne).
        { by rewrite encode_all_snoc, HS. }
        { by rewrite width_sum_snoc, HW. }
        exists tw, cur', ss'. rewrite Hf. split; [done|]. split; [done|].
        split; [|split; [done|intros _; apply (Hlast (cur ++ [r]));
                                  [apply last_snoc|done..]]].
        by rewrite Hj, Hcons, !append_assoc.
Qed.

Lemma width_sum_last rs r :
  last rs = Some r -> RuneWidth r <= width_sum rs.
Proof.
  induction rs as [|x rs IH]; [done|]. intros Hl. cbn.
  fold (width_sum rs). pose proof (RuneWidth_nonneg x).
  destruct rs as [|y rs]; [cbn in *; injection Hl as ->; lia|].
  specialize (IH Hl). lia.
Qed.

(** X1.  When [Utf8Split] splits, its chunks hold the runes of [s] in
    order, none twice, up to a last run of runes of width 0, which it
    drops. *)
Lemma Utf8Split_keeps_runes s w :
  w < Utf8Width s ->
  exists dropped,
    (forall r, r ∈ dropped -> RuneWidth r = 0) /\
    join (Utf8Split s w) +:+ encode_all dropped = encode_all (runes s).
Proof.
  intros Hw. unfold Utf8Split.
  replace (Utf8Width s <=? w) with false by (symmetry; apply Z.leb_gt; lia).
  destruct (split_fold_keeps w (runes s) 0 "" [] [])
    as (tw & cur & ss & Hf & Htw & Hj & _); [done..|].
  rewrite Hf. cbn in Hj.
  destruct (Z.gtb_spec tw 0) as [Hpos|Hzero].
  - exists []. split; [intros r Hr; by apply elem_of_nil in Hr|].
    by rewrite join_snoc, append_nil_r.
  - exists cur. split; [|done]. apply width_sum_zero. lia.
Qed.

(** X2.  For a well-formed string that does not end with a rune of width
    0, the chunks of [Utf8Split] put together are the string, whatever the
    width asked for. *)
Lemma Utf8Split_joins s w :
  wellformed s ->
  (forall r, last (runes s) = Some r -> 0 < RuneWidth r) ->
  join (Utf8Split s w) = s.
Proof.
  intros Hwf Hlast. unfold Utf8Split.
  destruct (Utf8Width s <=? w); [apply append_nil_r|].
  destruct (split_fold_keeps w (runes s) 0 "" [] [])
    as (tw & cur & ss & Hf & Htw & Hj & He & Hne); [done..|].
  rewrite Hf. cbn in Hj. rewrite Hwf in Hj.
  destruct (Z.gtb_spec tw 0) as [Hpos|Hzero].
  - by rewrite join_snoc.
  - assert (cur = []) as ->; [|by rewrite append_nil_r in Hj].
    destruct (runes s) as [|r0 rs] eqn:Hrs; [by apply He|].
    destruct Hne as [->|Hl]; [done|done|].
    destruct (last (r0 :: rs)) as [r|] eqn:Hr.
    + pose proof (Hlast r eq_refl). pose proof (width_sum_last cur r Hl). lia.
    + destruct cur as [|x cur]; [done|].
      exfalso. clear -Hl. revert x Hl.
      induction cur as [|y cur IH]; intros x Hl; [done|]. by apply (IH y).
Qed.

Lemma abcd_lf_wellformed : wellformed abcd_lf.
Proof. vm_compute. reflexivity. Qed.

(** C10, at an input where the code departs from it.  For the string
    [abcd] followed by a line feed and the width 2, with the letters narrow
    and the line feed neutral in the width table (as the doc comment of
    [RuneWidth] has them), [Utf8Split] returns the chunks [ab] and [cd]:
    the line feed is lost, and the chunks do not make up the string. *)
Theorem Utf8Split_drops_trailing_line_feed :
  (forall r, 0x61 <= r <= 0x64 -> LookupRune r = EastAsianNarrow) ->
  LookupRune 0x0A = Neutral ->
  Utf8Split abcd_lf 2 = ["ab"; "cd"] /\
  join (Utf8Split abcd_lf 2) <> abcd_lf.
Proof.
  intros Hletters Hlf.
  assert (Hn : forall r, 0x61 <= r <= 0x64 -> RuneWidth r = 1).
  { intros r Hr. unfold RuneWidth. by rewrite Hletters. }
  assert (H0 : RuneWidth 0x0A = 0) by (unfold RuneWidth; by rewrite Hlf).
  assert (Hsplit : Utf8Split abcd_lf 2 = ["ab"; "cd"]).
  { unfold Utf8Split, Utf8Width, split_step.
    change (runes abcd_lf) with [0x61; 0x62; 0x63; 0x64; 0x0A].
    cbn [fold_left]. rewrite !Hn, H0 by lia. reflexivity. }
  split; [exact Hsplit|]. rewrite Hsplit. vm_compute. discriminate.
Qed.

(** ** Rune counts, widths, truncation and wrapping *)

Lemma decode_step b0 t0 :
  exists r k, decode (b0 :: t0) = r :: decode (drop k t0).
Proof.
  cbn [decode].
  destruct (lead_size b0) as [|[|[|[|[|n]]]]];
    destruct t0 as [|b1 [|b2 [|b3 t3]]];
    repeat match goal with
           | |- context [if ?b then _ else _] => destruct b
           end;
    first [ by exists RuneError, 0%nat | by eexists _, 0%nat
          | by eexists _, 1%nat | by eexists _, 2%nat | by eexists _, 3%nat ].
Qed.

Lemma decode_length bs : (length (decode bs) <= length bs)%nat.
Proof.
  remember (length bs) as n eqn:Hn. revert bs Hn.
  induction n as [n IH] using lt_wf_ind. intros [|b0 t0] Hn; [cbn; lia|].
  destruct (decode_step b0 t0) as (r & k & ->). cbn [length] in *.
  specialize (IH (length (drop k t0))).
  rewrite length_drop in IH. specialize (IH ltac:(lia) (drop k t0)).
  rewrite length_drop in IH. specialize (IH eq_refl). lia.
Qed.

Lemma bytes_length s : length (bytes s) = String.length s.
Proof.
  unfold bytes. rewrite length_map.
  induction s as [|a s IH]; cbn; [done|]. by rewrite IH.
Qed.

Lemma fold_width rs : forall a,
  fold_left (fun size runeVal => size + RuneWidth runeVal) rs a
    = a + width_sum rs.
Proof.
  induction rs as [|r rs IH]; intros a; cbn; [lia|].
  rewrite IH. fold (width_sum rs). lia.
Qed.

Lemma Utf8Width_sum s : Utf8Width s = width_sum (runes s).
Proof. unfold Utf8Width. by rewrite fold_width. Qed.

Lemma width_sum_le_twice rs : width_sum rs <= 2 * Z.of_nat (length rs).
Proof.
  induction rs as [|r rs IH]; cbn; [lia|]. fold (width_sum rs).
  assert (RuneWidth r <= 2) by (unfold RuneWidth; destruct (LookupRune r); lia).
  lia.
Qed.

Lemma width_sum_app rs1 rs2 :
  width_sum (rs1 ++ rs2) = width_sum rs1 + width_sum rs2.
Proof.
  induction rs1 as [|r rs1 IH]; cbn; [done|].
  fold (width_sum (rs1 ++ rs2)). fold (width_sum rs1). lia.
Qed.

Lemma join_app ss1 ss2 : join (ss1 ++ ss2) = join ss1 +:+ join ss2.
Proof.
  induction ss1 as [|x ss1 IH]; cbn [app join fold_right]; [done|].
  fold (join (ss1 ++ ss2)). fold (join ss1). by rewrite IH, append_assoc.
Qed.

Lemma encode_all_app rs1 rs2 :
  encode_all (rs1 ++ rs2) = encode_all rs1 +:+ encode_all rs2.
Proof. unfold encode_all. by rewrite map_app, join_app. Qed.

(** X3.  The width of a string is never negative and never more than twice
    its number of runes, and the number of runes is never more than the
    number of bytes. *)
Theorem width_and_rune_count_bounds s :
  0 <= Utf8Width s <= 2 * Utf8Len s /\
  0 <= RuneCount s <= Z.of_nat (String.length s).
Proof.
  rewrite Utf8Width_sum. unfold Utf8Len, RuneCount.
  pose proof (width_sum_nonneg (runes s)).
  pose proof (width_sum_le_twice (runes s)).
  pose proof (decode_length (bytes s)) as Hlen.
  rewrite bytes_length in Hlen.
  change (decode (bytes s)) with (runes s) in Hlen. lia.
Qed.

Lemma width_sum_cons r rs : width_sum (r :: rs) = RuneWidth r + width_sum rs.
Proof. reflexivity. Qed.

Lemma truncate_index_spec w rs : forall tmpW,
  let i := truncate_index w rs tmpW in
  (i <= length rs)%nat /\
  (tmpW <= w -> tmpW + width_sum (take i rs) <= w) /\
  ((i < length rs)%nat -> w < tmpW + width_sum (take (S i) rs)) /\
  (i = length rs -> rs <> [] -> tmpW + width_sum rs <= w).
Proof.
  induction rs as [|r rs IH]; intros tmpW; cbn [truncate_index].
  - cbn. repeat split; try lia. done.
  - destruct (Z.gtb_spec (tmpW + RuneWidth r) w) as [Hgt|Hle]; cbv zeta.
    + cbn [length]. rewrite firstn_O.
      change (take 1 (r :: rs)) with (r :: take 0 rs).
      rewrite width_sum_cons, firstn_O. cbn [width_sum fold_right].
      repeat split; try lia.
    + destruct (IH (tmpW + RuneWidth r)) as (H1 & H2 & H3 & H4).
      set (i := truncate_index w rs (tmpW + RuneWidth r)) in *.
      change (take (S i) (r :: rs)) with (r :: take i rs).
      change (take (S (S i)) (r :: rs)) with (r :: take (S i) rs).
      rewrite !width_sum_cons. cbn [length].
      split; [lia|]. split; [intros _; specialize (H2 Hle); lia|].
      split.
      * intros Hlt. specialize (H3 ltac:(lia)). lia.
      * intros Hi _. destruct rs as [|r' rs']; [cbn; lia|].
        specialize (H4 ltac:(cbn in *; lia) ltac:(done)). lia.
Qed.

Lemma truncate_index_all w rs : forall tmpW,
  tmpW + width_sum rs <= w -> truncate_index w rs tmpW = length rs.
Proof.
  induction rs as [|r rs IH]; intros tmpW Hfit; cbn [truncate_index]; [done|].
  rewrite width_sum_cons in Hfit.
  pose proof (RuneWidth_nonneg r). pose proof (width_sum_nonneg rs).
  replace (tmpW + RuneWidth r >? w) with false
    by (symmetry; rewrite Z.gtb_ltb; apply Z.ltb_ge; lia).
  cbn [length]. f_equal. apply IH. lia.
Qed.

Lemma int_bits_half : 2 ^ int_bits = 2 * 2 ^ (int_bits - 1) /\ 0 < 2 ^ (int_bits - 1).
Proof. destruct int_bits_32_64 as [-> | ->]; split; reflexivity. Qed.

Lemma wrap_within z : min_int <= z <= max_int -> wrap z = z.
Proof.
  unfold wrap, min_int, max_int. destruct int_bits_half as [-> Hpos].
  intros Hz. rewrite Z.mod_small; lia.
Qed.

Lemma wrap_below z :
  min_int - 2 ^ int_bits <= z < min_int -> wrap z = z + 2 ^ int_bits.
Proof.
  unfold wrap, min_int. destruct int_bits_half as [-> Hpos]. intros Hz.
  rewrite <- (Z.mod_add _ 1) by lia. rewrite Z.mod_small; lia.
Qed.

(** X4.  Let [w] be an [int] below the width of the string, and let the
    width of the tail fit an [int].  [Utf8Truncate] keeps a prefix of the
    runes and appends the tail.  The prefix is the longest one that, with
    the tail, stays within [w]: with it the result is not wider than [w]
    (when the tail alone fits), and one rune more would be; for [w] not
    negative, at least one rune is cut off.  Where [w] is so far below zero
    that [w - TextWidth(tail)] is less than the least [int], the subtraction
    wraps around and every rune is kept. *)
Theorem Utf8Truncate_cuts s w tail :
  min_int <= w <= max_int ->
  Utf8Width tail <= max_int ->
  w < Utf8Width s ->
  exists i,
    (i <= length (runes s))%nat /\
    (0 <= w -> (i < length (runes s))%nat) /\
    Utf8Truncate s w tail = encode_all (take i (runes s)) +:+ tail /\
    (Utf8Width tail <= w ->
       width_sum (take i (runes s)) + Utf8Width tail <= w) /\
    w < width_sum (take (S i) (runes s)) + Utf8Width tail /\
    (w - Utf8Width tail < min_int ->
     Utf8Width s + Utf8Width tail <= max_int ->
       i = length (runes s)).
Proof.
  intros Hint Htail Hw. unfold Utf8Truncate, TextWidth.
  replace (Utf8Width s <=? w) with false by (symmetry; apply Z.leb_gt; lia).
  pose proof (Utf8Width_sum s) as Hs.
  pose proof (Utf8Width_sum tail) as Ht.
  pose proof (width_sum_nonneg (runes tail)) as Htail0.
  pose proof (width_sum_nonneg (runes s)) as Hs0.
  destruct int_bits_half as [Hpow Hpos].
  destruct (Z_lt_le_dec (w - Utf8Width tail) min_int) as [Hwrap|Hnowrap].
  - (* the subtraction wraps around *)
    rewrite wrap_below by (unfold min_int, max_int in *; lia).
    set (w' := w - Utf8Width tail + 2 ^ int_bits).
    destruct (truncate_index_spec w' (runes s) 0) as (H1 & H2 & H3 & H4).
    set (i := truncate_index w' (runes s) 0) in *.
    assert (Hneg : w < 0) by (unfold min_int, max_int in *; lia).
    exists i. split; [done|]. split; [lia|]. split; [done|].
    split; [lia|]. split.
    + pose proof (width_sum_nonneg (take (S i) (runes s))). lia.
    + intros _ Hfit. subst i. apply truncate_index_all.
      subst w'. unfold min_int, max_int in *. lia.
  - (* it does not *)
    rewrite wrap_within by (unfold min_int, max_int in *; lia).
    set (w' := w - Utf8Width tail).
    destruct (truncate_index_spec w' (runes s) 0) as (H1 & H2 & H3 & H4).
    set (i := truncate_index w' (runes s) 0) in *.
    assert (Hnoend : runes s <> [] -> (i < length (runes s))%nat).
    { intros Hne. destruct (decide (i = length (runes s))) as [Heq|]; [|lia].
      specialize (H4 Heq Hne). subst w'. lia. }
    exists i. split; [done|]. split.
    { intros Hw0. apply Hnoend. intros Hnil. rewrite Hnil in Hs. cbn in Hs. lia. }
    split; [done|].
    split; [intros Hfit; subst w'; specialize (H2 ltac:(lia)); lia|].
    split; [|lia].
    destruct (runes s) as [|r0 rs] eqn:Hrs.
    + cbn in *. lia.
    + specialize (Hnoend ltac:(done)). specialize (H3 Hnoend). subst w'. lia.
Qed.

Lemma line_feed_rune : String "010"%char EmptyString = string_of_rune 0x0A.
Proof. reflexivity. Qed.

Lemma no_line_feeds_app rs1 rs2 :
  no_line_feeds (rs1 ++ rs2) = no_line_feeds rs1 ++ no_line_feeds rs2.
Proof. apply List.filter_app. Qed.

(** The loop of [WidthWrap] writes out every rune it reads, in order, and
    writes nothing else but line feeds. *)
Lemma wrap_fold_keeps w rs : forall tmpW out acc,
  out = encode_all acc ->
  exists acc',
    (fold_left (wrap_step w) rs (tmpW, out)).2 = encode_all acc' /\
    (acc ++ rs) `sublist_of` acc' /\
    no_line_feeds acc' = no_line_feeds (acc ++ rs).
Proof.
  induction rs as [|r rs IH]; intros tmpW out acc Hout.
  - exists acc. by rewrite app_nil_r.
  - cbn [fold_left]. unfold wrap_step at 2.
    destruct (Z.eqb_spec r 0x0A) as [Hr|Hr].
    + destruct (IH 0 (out +:+ string_of_rune r) (acc ++ [r])) as (acc' & H1 & H2 & H3).
      { by rewrite encode_all_snoc, Hout. }
      exists acc'. rewrite <- (assoc_L (++)) in H2, H3. done.
    + destruct (tmpW + RuneWidth r >? w).
      * destruct (IH (RuneWidth r)
                    ((out +:+ String "010"%char EmptyString) +:+ string_of_rune r)
                    (acc ++ [0x0A; r])) as (acc' & H1 & H2 & H3).
        { rewrite line_feed_rune, Hout.
          change [0x0A; r] with ([0x0A] ++ [r]).
          by rewrite (assoc_L (++)), !encode_all_snoc. }
        exists acc'. split; [done|]. split.
        -- etrans; [|exact H2]. rewrite <- !(assoc_L (++)).
           apply sublist_app; [done|]. cbn. by apply sublist_cons.
        -- rewrite H3, !no_line_feeds_app. unfold no_line_feeds.
           cbn [List.filter]. apply Z.eqb_neq in Hr. rewrite Hr.
           cbn. by rewrite <- (assoc_L (++)).
      * destruct (IH (tmpW + RuneWidth r) (out +:+ string_of_rune r)
                    (acc ++ [r])) as (acc' & H1 & H2 & H3).
        { by rewrite encode_all_snoc, Hout. }
        exists acc'. rewrite <- (assoc_L (++)) in H2, H3. done.
Qed.

(** X5.  [WidthWrap] keeps every rune of the string, line feeds included,
    in order, and adds nothing but line feeds. *)
Theorem WidthWrap_only_adds_line_feeds s w :
  exists rs,
    WidthWrap s w = encode_all rs /\
    runes s `sublist_of` rs /\
    no_line_feeds rs = no_line_feeds (runes s).
Proof.
  unfold WidthWrap.
  destruct (wrap_fold_keeps w (runes s) 0 "" []) as (rs & H1 & H2 & H3);
    [done|].
  by exists rs.
Qed.

Lemma wrap_fold_fits w rs : forall tmpW out,
  0 <= tmpW -> tmpW + width_sum rs <= w ->
  (fold_left (wrap_step w) rs (tmpW, out)).2 = out +:+ encode_all rs.
Proof.
  induction rs as [|r rs IH]; intros tmpW out Hpos Hfit.
  - cbn. by rewrite append_nil_r.
  - cbn [fold_left]. unfold wrap_step at 2.
    cbn in Hfit. fold (width_sum rs) in Hfit.
    pose proof (RuneWidth_nonneg r). pose proof (width_sum_nonneg rs).
    assert (Hcons : encode_all (r :: rs)
                    = string_of_rune r +:+ encode_all rs) by done.
    destruct (r =? 10).
    + rewrite IH by lia. by rewrite Hcons, append_assoc.
    + replace (tmpW + RuneWidth r >? w) with false
        by (symmetry; rewrite Z.gtb_ltb; apply Z.ltb_ge; lia).
      rewrite IH by lia. by rewrite Hcons, append_assoc.
Qed.

(** X6.  A well-formed string that is not wider than [w] comes out of
    [WidthWrap] as it went in. *)
Theorem WidthWrap_fits s w :
  wellformed s -> Utf8Width s <= w -> WidthWrap s w = s.
Proof.
  intros Hwf Hfit. unfold WidthWrap. rewrite Utf8Width_sum in Hfit.
  rewrite wrap_fold_fits by lia. exact Hwf.
Qed.

Lemma RuneWidth_le_2 r : RuneWidth r <= 2.
Proof. unfold RuneWidth. destruct (LookupRune r); lia. Qed.

Lemma width_sum_pos_nonempty rs : 0 < width_sum rs -> rs <> [].
Proof. by destruct rs. Qed.

(** For a width of 2 or more, the loop of [Utf8Split] cuts the runes into
    consecutive groups, none empty and none wider than [w]. *)
Lemma split_fold_groups w rs :
  2 <= w ->
  forall tmpW cur groups,
  Forall (fun g => g <> [] /\ width_sum g <= w) groups ->
  tmpW = width_sum cur -> tmpW <= w ->
  exists tmpW' cur' groups',
    fold_left (split_step w) rs (tmpW, encode_all cur, map encode_all groups)
      = (tmpW', encode_all cur', map encode_all groups') /\
    Forall (fun g => g <> [] /\ width_sum g <= w) groups' /\
    tmpW' = width_sum cur' /\ tmpW' <= w /\
    concat groups' ++ cur' = (concat groups ++ cur) ++ rs.
Proof.
  intros Hw. induction rs as [|r rs IH]; intros tmpW cur groups Hg HW Hle.
  - exists tmpW, cur, groups. by rewrite app_nil_r.
  - cbn [fold_left]. unfold split_step at 2.
    pose proof (RuneWidth_nonneg r). pose proof (RuneWidth_le_2 r).
    pose proof (width_sum_nonneg cur).
    destruct (Z.eqb_spec (tmpW + RuneWidth r) w) as [Heq|Hne].
    + destruct (IH 0 [] (groups ++ [cur ++ [r]]))
        as (tw & cur' & groups' & Hf & HF & Htw & Hle' & Hc); [|done|lia|].
      { apply Forall_app. split; [done|]. apply Forall_singleton.
        split; [by destruct cur|]. rewrite width_sum_snoc. lia. }
      exists tw, cur', groups'.
      rewrite map_app in Hf. cbn [map] in Hf. rewrite encode_all_snoc in Hf.
      split; [exact Hf|]. split; [done|]. split; [done|]. split; [done|].
      rewrite Hc, concat_app. cbn. rewrite !app_nil_r.
      by rewrite <- !(assoc_L (++)).
    + destruct (Z.gtb_spec (tmpW + RuneWidth r) w) as [Hgt|Hngt].
      * destruct (IH (RuneWidth r) [r] (groups ++ [cur]))
          as (tw & cur' & groups' & Hf & HF & Htw & Hle' & Hc);
          [|cbn; lia|lia|].
        { apply Forall_app. split; [done|]. apply Forall_singleton.
          split; [apply width_sum_pos_nonempty; lia|lia]. }
        exists tw, cur', groups'.
        rewrite map_app in Hf. cbn [map] in Hf.
        assert (He : encode_all [r] = string_of_rune r).
        { cbn. apply append_nil_r. }
        rewrite He in Hf.
        split; [exact Hf|]. split; [done|]. split; [done|]. split; [done|].
        rewrite Hc, concat_app. cbn. rewrite !app_nil_r.
        by rewrite <- !(assoc_L (++)).
      * destruct (IH (tmpW + RuneWidth r) (cur ++ [r]) groups)
          as (tw & cur' & groups' & Hf & HF & Htw & Hle' & Hc);
          [done|by rewrite width_sum_snoc, HW|lia|].
        exists tw, cur', groups'. rewrite encode_all_snoc in Hf.
        split; [exact Hf|]. split; [done|]. split; [done|]. split; [done|].
        by rewrite Hc, <- !(assoc_L (++)).
Qed.

(** X7.  For a width of 2 or more, [Utf8Split] of a string wider than [w]
    cuts its runes into consecutive groups, one per chunk: no chunk is
    empty, none is wider than [w], and the groups in order make up the
    runes of the string, up to a last run of runes of width 0. *)
Theorem Utf8Split_chunks_fit s w :
  2 <= w -> w < Utf8Width s ->
  exists groups dropped,
    Utf8Split s w = map encode_all groups /\
    Forall (fun g => g <> [] /\ width_sum g <= w) groups /\
    concat groups ++ dropped = runes s /\
    (forall r, r ∈ dropped -> RuneWidth r = 0).
Proof.
  intros Hw Hwide. unfold Utf8Split.
  replace (Utf8Width s <=? w) with false by (symmetry; apply Z.leb_gt; lia).
  destruct (split_fold_groups w (runes s) Hw 0 [] [])
    as (tw & cur & groups & Hf & HF & Htw & Hle & Hc); [done|done|lia|].
  change (encode_all []) with "" in Hf. cbn [map] in Hf. rewrite Hf.
  cbn in Hc.
  destruct (Z.gtb_spec tw 0) as [Hpos|Hzero].
  - exists (groups ++ [cur]), []. rewrite map_app. split; [done|]. split.
    + apply Forall_app. split; [done|]. apply Forall_singleton.
      split; [apply width_sum_pos_nonempty; lia|lia].
    + split; [|intros r Hr; by apply elem_of_nil in Hr].
      rewrite concat_app. cbn. by rewrite !app_nil_r.
  - exists groups, cur. split; [done|]. split; [done|]. split; [done|].
    apply width_sum_zero. lia.
Qed.

(** For a width of 2 or more, the loop of [WidthWrap] writes lines that are
    not wider than [w]. *)
Lemma wrap_fold_lines w rs :
  2 <= w ->
  forall tmpW done cur,
  Forall (fun l => width_sum l <= w) done ->
  tmpW = width_sum cur -> tmpW <= w ->
  exists done' cur',
    (fold_left (wrap_step w) rs
       (tmpW, encode_all (concat (map (fun l => l ++ [0x0A]) done) ++ cur))).2
      = encode_all (concat (map (fun l => l ++ [0x0A]) done') ++ cur') /\
    Forall (fun l => width_sum l <= w) (done' ++ [cur']).
Proof.
  intros Hw. induction rs as [|r rs IH]; intros tmpW done cur Hd HW Hle.
  - exists done, cur. split; [done|]. apply Forall_app. split; [done|].
    apply Forall_singleton. lia.
  - cbn [fold_left]. unfold wrap_step at 2.
    pose proof (RuneWidth_nonneg r). pose proof (RuneWidth_le_2 r).
    destruct (Z.eqb_spec r 0x0A) as [Hr|Hr].
    + destruct (IH 0 (done ++ [cur]) []) as (done' & cur' & Hf & HF);
        [|done|lia|].
      { apply Forall_app. split; [done|]. apply Forall_singleton. lia. }
      exists done', cur'. split; [|done]. rewrite <- Hf. do 3 f_equal.
      rewrite <- encode_all_snoc. f_equal.
      rewrite map_app, concat_app. cbn [map concat]. rewrite !app_nil_r.
      subst r. by rewrite (assoc_L (++)).
    + destruct (Z.gtb_spec (tmpW + RuneWidth r) w) as [Hgt|Hngt].
      * destruct (IH (RuneWidth r) (done ++ [cur]) [r])
          as (done' & cur' & Hf & HF); [|cbn; lia|lia|].
        { apply Forall_app. split; [done|]. apply Forall_singleton. lia. }
        exists done', cur'. split; [|done]. rewrite <- Hf. do 3 f_equal.
        rewrite line_feed_rune, <- !encode_all_snoc. f_equal.
        rewrite map_app, concat_app. cbn [map concat]. rewrite !app_nil_r.
        by rewrite !(assoc_L (++)).
      * destruct (IH (tmpW + RuneWidth r) done (cur ++ [r]))
          as (done' & cur' & Hf & HF);
          [done|by rewrite width_sum_snoc, HW|lia|].
        exists done', cur'. split; [|done]. rewrite <- Hf. do 3 f_equal.
        by rewrite <- encode_all_snoc, <- (assoc_L (++)).
Qed.

(** X8.  For a width of 2 or more, what [WidthWrap] returns is made of
    lines, each but the last ended by a line feed, none wider than [w]. *)
Theorem WidthWrap_lines_fit s w :
  2 <= w ->
  exists lines last_line,
    WidthWrap s w
      = encode_all (concat (map (fun l => l ++ [0x0A]) lines) ++ last_line) /\
    Forall (fun l => width_sum l <= w) (lines ++ [last_line]).
Proof.
  intros Hw. unfold WidthWrap.
  destruct (wrap_fold_lines w (runes s) Hw 0 [] [])
    as (done' & cur' & Hf & HF); [done|done|lia|].
  exists done', cur'. split; [|done]. exact Hf.
Qed.

End SplitFacts.

Lemma Utf8Split_drops_trailing_line_feed_witness :
  Utf8Split (WT := ascii_table) abcd_lf 2 = ["ab"; "cd"] /\
  join (Utf8Split (WT := ascii_table) abcd_lf 2) <> abcd_lf.
Proof.
  apply (Utf8Split_drops_trailing_line_feed (WT := ascii_table)).
  - intros r Hr. unfold LookupRune, ascii_table, in_rng.
    replace (0x20 <=? r) with true by (symmetry; apply Z.leb_le; lia).
    replace (r <=? 0x7E) with true by (symmetry; apply Z.leb_le; lia).
    reflexivity.
  - reflexivity.
Defined.

Lemma Utf8Split_keeps_runes_witness :
  exists dropped,
    (forall r, r ∈ dropped -> RuneWidth (WT := ascii_table) r = 0) /\
    join (Utf8Split (WT := ascii_table) abcd_lf 2) +:+ encode_all dropped
      = encode_all (runes abcd_lf).
Proof.
  apply (Utf8Split_keeps_runes (WT := ascii_table) abcd_lf 2).
  vm_compute. reflexivity.
Defined.

Lemma Utf8Split_joins_witness :
  join (Utf8Split (WT := ascii_table) "hello" 2) = "hello".
Proof.
  apply (Utf8Split_joins (WT := ascii_table) "hello" 2).
  - vm_compute. reflexivity.
  - intros r Hr. vm_compute in Hr. injection Hr as <-. vm_compute. reflexivity.
Defined.

Lemma Utf8Truncate_cuts_witness :
  exists i,
    (i <= length (runes "hello world"))%nat /\
    (0 <= 8 -> (i < length (runes "hello world"))%nat) /\
    Utf8Truncate (WT := ascii_table) (IS := int64) "hello world" 8 "..."
      = encode_all (take i (runes "hello world")) +:+ "..." /\
    (Utf8Width (WT := ascii_table) "..." <= 8 ->
       width_sum (WT := ascii_table) (take i (runes "hello world"))
       + Utf8Width (WT := ascii_table) "..." <= 8) /\
    8 < width_sum (WT := ascii_table) (take (S i) (runes "hello world"))
        + Utf8Width (WT := ascii_table) "..." /\
    (8 - Utf8Width (WT := ascii_table) "..." < min_int (IS := int64) ->
     Utf8Width (WT := ascii_table) "hello world"
     + Utf8Width (WT := ascii_table) "..." <= max_int (IS := int64) ->
       i = length (runes "hello world")).
Proof.
  apply (Utf8Truncate_cuts (WT := ascii_table) (IS := int64)
           "hello world" 8 "...").
  - vm_compute. split; discriminate.
  - vm_compute. discriminate.
  - vm_compute. reflexivity.
Defined.

(** At the least [int] of a 64-bit platform the subtraction wraps around and
    nothing is cut off, while at -1 every rune is. *)
Example Utf8Truncate_at_least_int :
  Utf8Truncate (WT := ascii_table) (IS := int64) "hello" (- 2 ^ 63) "..."
    = "hello..." /\
  Utf8Truncate (WT := ascii_table) (IS := int64) "hello" (-1) "..." = "...".
Proof. split; vm_compute; reflexivity. Qed.

Lemma WidthWrap_fits_witness :
  WidthWrap (WT := ascii_table) "hello" 10 = "hello".
Proof.
  apply (WidthWrap_fits (WT := ascii_table) "hello" 10).
  - vm_compute. reflexivity.
  - vm_compute. discriminate.
Defined.

Lemma Utf8Split_chunks_fit_witness :
  exists groups dropped,
    Utf8Split (WT := ascii_table) "hello" 2 = map encode_all groups /\
    Forall (fun g => g <> [] /\ width_sum (WT := ascii_table) g <= 2) groups /\
    concat groups ++ dropped = runes "hello" /\
    (forall r, r ∈ dropped -> RuneWidth (WT := ascii_table) r = 0).
Proof.
  apply (Utf8Split_chunks_fit (WT := ascii_table) "hello" 2).
  - lia.
  - vm_compute. reflexivity.
Defined.

Lemma WidthWrap_lines_fit_witness :
  exists lines last_line,
    WidthWrap (WT := ascii_table) "hello world" 4
      = encode_all (concat (map (fun l => l ++ [0x0A]) lines) ++ last_line) /\
    Forall (fun l => width_sum (WT := ascii_table) l <= 4) (lines ++ [last_line]).
Proof.
  apply (WidthWrap_lines_fit (WT := ascii_table) "hello world" 4). lia.
Defined.

End strutil_props.
